(** * Avatar application: motion selection, drag gestures, speech tasks, model loading

    A shallow embedding of
      - [hooks/canvas/use-live2d-model-pixi.ts]
          ([playRandomMotion], [getMergedMotionGroup], [handleTapMotion],
           the pointer handlers of [setupModelInteractions], [setupModel],
           [loadModel]),
      - [hooks/utils/use-audio-task.ts]
          ([handleAudioPlayback], [addAudioTask]).

    Conventions of the embedding.
      - A JavaScript [number] is a binary64 floating-point number ([float]):
        [+], [-], [*], [/] round to nearest, ties to even, and [<=], [>]
        are false on [NaN], as in the language.  [Math.random()] is a value
        read from a stream held in the world.  [Math.hypot], whose result
        the language leaves to the engine, is a parameter of the drag
        handlers.
      - A plain object used as a dictionary is the list of its own
        enumerable entries in [Object.entries] order; a new key goes to the
        end of the list, an existing key keeps its place (keys are not
        array indices).  A property read [o[k]] finds the own entry or, for
        the names of [Object.prototype], the inherited member.
      - Calls into collaborators (the model handle, chat history, subtitle,
        web socket, console, toaster) are recorded in order in a trace. *)

From Stdlib Require Import List String Bool Arith ZArith Lia Floats.
Import ListNotations.

#[local] Set Warnings "-inexact-float".

(* ------------------------------------------------------------------------- *)
(** ** Plain objects used as dictionaries *)

Module JsObject.

Section Dict.
Context {V : Type}.

Definition obj := list (string * V).

(** [Object.keys], [Object.values], [Object.entries]. *)
Definition keys (o : obj) : list string := map fst o.
Definition values (o : obj) : list V := map snd o.
Definition entries (o : obj) : list (string * V) := o.

(** The own property [k] of [o]: [None] when [o] has no own entry for it. *)
Fixpoint get (o : obj) (k : string) : option V :=
  match o with
  | [] => None
  | (k', v) :: rest => if String.eqb k' k then Some v else get rest k
  end.

(** [o[k] = v]. *)
Fixpoint set (o : obj) (k : string) (v : V) : obj :=
  match o with
  | [] => [(k, v)]
  | (k', v') :: rest =>
      if String.eqb k' k then (k', v) :: rest else (k', v') :: set rest k v
  end.

(** An object holds each key once. *)
Definition wf (o : obj) : Prop := NoDup (keys o).

End Dict.

Arguments obj : clear implicits.

Local Open Scope string_scope.

(** The property names of [Object.prototype].  For a name [k] of this
    list that is not an own key, [o[k]] is the inherited member: a
    function, or [Object.prototype] itself for [__proto__]; it is truthy
    and has no enumerable own property. *)
Definition Object_prototype : list string :=
  ["constructor"; "__defineGetter__"; "__defineSetter__"; "hasOwnProperty";
   "__lookupGetter__"; "__lookupSetter__"; "isPrototypeOf";
   "propertyIsEnumerable"; "toString"; "valueOf"; "__proto__";
   "toLocaleString"].

Definition inherited (k : string) : bool :=
  existsb (String.eqb k) Object_prototype.

End JsObject.

Import JsObject.

(* ------------------------------------------------------------------------- *)
(** ** Motion selection ([use-live2d-model-pixi.ts]) *)

Module Motion.

Local Open Scope float_scope.

(** [type MotionWeightMap = { [motionGroupName: string]: number }] and the
    [TapMotionMap] of the configuration: hit-area name to weight map. *)
Definition MotionWeightMap : Type := obj float.
Definition TapMotionMap : Type := obj MotionWeightMap.

(** What a tap handler reads and writes: the values the next calls of
    [Math.random()] return ([rand] at [drawn], [drawn + 1], ...), and the
    motions started on the model handle by
    [model.motion(name, undefined, MotionPriority.FORCE)], oldest first. *)
Record World : Type := mkWorld {
  rand : nat -> float;
  drawn : nat;
  motions : list string
}.

Definition M (A : Type) : Type := World -> A * World.

Definition ret {A : Type} (a : A) : M A := fun w => (a, w).

Definition bind {A B : Type} (m : M A) (k : A -> M B) : M B :=
  fun w => let (a, w') := m w in k a w'.

Notation "x <- m ;; k" := (bind m (fun x => k))
  (at level 100, m at next level, right associativity).
Notation "m ;; k" := (bind m (fun _ => k))
  (at level 100, right associativity).

Definition Math_random : M float :=
  fun w => (rand w (drawn w), mkWorld (rand w) (S (drawn w)) (motions w)).

Definition model_motion (motion : string) : M unit :=
  fun w => (tt, mkWorld (rand w) (drawn w) (motions w ++ [motion])).

(** [Object.values(motionGroup).reduce((sum, weight) => sum + weight, 0)]. *)
Definition totalWeight (motionGroup : MotionWeightMap) : float :=
  fold_left (fun sum weight => sum + weight) (values motionGroup) 0.

(** The [find] callback of [playRandomMotion] over the entries still to
    visit: [random] is the captured variable, decreased by each weight. *)
Fixpoint find_motion (random : float) (es : list (string * float))
  : M (option (string * float)) :=
  match es with
  | [] => ret None
  | (motion, weight) :: rest =>
      let random := random - weight in
      if random <=? 0
      then (model_motion motion ;; ret (Some (motion, weight)))
      else find_motion random rest
  end.

(** [motionGroup] is [None] for a missing (falsy) argument. *)
Definition playRandomMotion (motionGroup : option MotionWeightMap) : M unit :=
  match motionGroup with
  | None => ret tt
  | Some group =>
      if (List.length (keys group) =? 0)%nat then ret tt
      else
        let totalWeight := totalWeight group in
        u <- Math_random ;;
        let random := u * totalWeight in
        find_motion random (entries group) ;;
        ret tt
  end.

(** The accumulator entry [{ total, count }] of [getMergedMotionGroup]. *)
Record Tally : Type := mkTally { total : float; count : float }.

(** One step of the first [reduce].  When [acc] has no own entry for
    [motion], [acc[motion]] is [undefined] and the entry is created,
    unless the name is inherited: then [acc[motion]] is the inherited
    member, no entry is created, and the two additions change properties
    of that member, not [acc]. *)
Definition tally_step (acc : obj Tally) (e : string * float) : obj Tally :=
  let (motion, weight) := e in
  let acc :=
    match get acc motion with
    | None => if inherited motion then acc else set acc motion (mkTally 0 0)
    | Some _ => acc
    end in
  match get acc motion with
  | Some t => set acc motion (mkTally (total t + weight) (count t + 1))
  | None => acc
  end.

(** One step of the second [reduce]: [{ ...acc, [motion]: total / count }]. *)
Definition mean_step (acc : MotionWeightMap) (e : string * Tally)
  : MotionWeightMap :=
  let (motion, t) := e in
  set acc motion (total t / count t).

Definition getMergedMotionGroup (tapMotions : TapMotionMap) : MotionWeightMap :=
  let mergedMotions :=
    fold_left tally_step
      (flat_map (fun motionGroup => entries motionGroup) (values tapMotions))
      [] in
  fold_left mean_step (entries mergedMotions) [].

(** What [playRandomMotion] sees of a member of [Object.prototype]: its own
    enumerable entries.  It has none as the engine provides it.  (The
    additions of [tally_step] can give it the properties [total] and
    [count], both [NaN]; nothing is selected from it then either, since
    the remainder is [NaN].  That state is left out.) *)
Definition prototype_member : MotionWeightMap := [].

(** [hitAreas.find(...)] of [handleTapMotion]: the callback plays from the
    group of the area it accepts, and [find] stops there.  For an area
    without a group whose name is inherited, [tapMotions[area]] is the
    inherited member, which is truthy: the callback accepts the area and
    hands the member to [playRandomMotion]. *)
Fixpoint find_area (tapMotions : TapMotionMap) (hitAreas : list string)
  : M (option string) :=
  match hitAreas with
  | [] => ret None
  | area :: rest =>
      match get tapMotions area with
      | Some motionGroup =>
          playRandomMotion (Some motionGroup) ;; ret (Some area)
      | None =>
          if inherited area
          then playRandomMotion (Some prototype_member) ;; ret (Some area)
          else find_area tapMotions rest
      end
  end.

(** [!foundMotion]: [undefined] and the empty string are falsy. *)
Definition falsy (foundMotion : option string) : bool :=
  match foundMotion with
  | None => true
  | Some area => String.eqb area EmptyString
  end.

(** [handleTapMotion], after [model.hitTest] returned [hitAreas];
    [tapMotions] is [modelInfo?.tapMotions]. *)
Definition handleTapMotion (tapMotions : option TapMotionMap)
  (hitAreas : list string) : M unit :=
  match tapMotions with
  | None => ret tt
  | Some tapMotions =>
      foundMotion <- find_area tapMotions hitAreas ;;
      if falsy foundMotion && (0 <? List.length (keys tapMotions))%nat
      then
        let mergedMotions := getMergedMotionGroup tapMotions in
        playRandomMotion (Some mergedMotions)
      else ret tt
  end.

(** A world whose [Math.random()] returns [us] in turn (and [0] after),
    with nothing played yet. *)
Definition fresh (us : list float) : World :=
  mkWorld (fun n => nth n us 0) 0 [].

(** The motions a computation starts, run from [fresh us]. *)
Definition played {A : Type} (m : M A) (us : list float) : list string :=
  motions (snd (m (fresh us))).

(** The selection of [playRandomMotion] when [Math.random()] returns [u]:
    the motion it starts, if any. *)
Definition pickWeighted (u : float) (group : MotionWeightMap) : option string :=
  hd_error (played (playRandomMotion (Some group)) [u]).

(** The running remainder of [random] after the entries [es]. *)
Definition remainder (random : float) (es : list (string * float)) : float :=
  fold_left (fun r e => r - snd e) es random.

End Motion.

(* ------------------------------------------------------------------------- *)
(** ** Vocabulary for statements about weight maps *)

Module MotionSpec.
Import Motion.

Local Open Scope float_scope.

(** The sum of the weights, added from the left starting at [0], and the
    number of elements counted by adding [1] for each, as the reductions
    of [getMergedMotionGroup] do. *)
Definition sumOf (ws : list float) : float :=
  fold_left (fun sum w => sum + w) ws 0.

Definition countOf {A : Type} (l : list A) : float :=
  fold_left (fun n _ => n + 1) l 0.

(** The group has an entry for the motion. *)
Definition contains (motion : string) (group : MotionWeightMap) : bool :=
  match get group motion with Some _ => true | None => false end.

(** The motion's weight in a group ([0] when it has none). *)
Definition weightIn (motion : string) (group : MotionWeightMap) : float :=
  match get group motion with Some w => w | None => 0 end.

(** The groups of a tap-motion map that contain the motion. *)
Definition groupsWith (motion : string) (tapMotions : TapMotionMap)
  : list MotionWeightMap :=
  filter (contains motion) (values tapMotions).

(** Mean of the motion's weight over the groups containing it: the sum of
    those weights divided by their number. *)
Definition meanWeight (motion : string) (tapMotions : TapMotionMap) : float :=
  sumOf (map (weightIn motion) (groupsWith motion tapMotions))
  / countOf (groupsWith motion tapMotions).

(** Mean of the motion's weight over all the groups, a group without the
    motion counting as weight [0]. *)
Definition meanOverAll (motion : string) (tapMotions : TapMotionMap) : float :=
  sumOf (map (weightIn motion) (values tapMotions))
  / countOf (values tapMotions).

Definition sameEntry (x y : option float) : Prop :=
  match x, y with
  | Some a, Some b => a = b
  | None, None => True
  | _, _ => False
  end.

(** Two weight maps with the same keys and the same weights. *)
Definition sameWeights (a b : MotionWeightMap) : Prop :=
  forall motion, sameEntry (get a motion) (get b motion).

(** The entries of a list of entries that belong to one motion. *)
Definition weightsFor (motion : string) (es : list (string * float))
  : list float :=
  map snd (filter (fun e => String.eqb (fst e) motion) es).

(** The accumulator entry of a motion after its weights [ws] were added. *)
Definition tallyAfter (init : option Tally) (ws : list float) : option Tally :=
  fold_left
    (fun o w =>
       match o with
       | Some t => Some (mkTally (total t + w) (count t + 1))
       | None => Some (mkTally (0 + w) (0 + 1))
       end)
    ws init.

Definition meanEntry (e : string * Tally) : string * float :=
  (fst e, total (snd e) / count (snd e)).

(** The first hit area, in the given order, that has a group configured. *)
Fixpoint firstConfigured (tapMotions : TapMotionMap) (hitAreas : list string)
  : option (string * MotionWeightMap) :=
  match hitAreas with
  | [] => None
  | area :: rest =>
      match get tapMotions area with
      | Some group => Some (area, group)
      | None => firstConfigured tapMotions rest
      end
  end.

(** The first hit area for which [tapMotions[area]] is truthy, with what
    the property read gives: the group configured for it or, for an
    inherited name, the inherited member. *)
Fixpoint firstFound (tapMotions : TapMotionMap) (hitAreas : list string)
  : option (string * MotionWeightMap) :=
  match hitAreas with
  | [] => None
  | area :: rest =>
      match get tapMotions area with
      | Some group => Some (area, group)
      | None =>
          if inherited area then Some (area, prototype_member)
          else firstFound tapMotions rest
      end
  end.

End MotionSpec.

(* ------------------------------------------------------------------------- *)
(** ** Tap resolution as the specification words it *)

Module TapSpec.
Import Motion MotionSpec.

(** [resolveTapMotion]: select within the group of the first hit area that
    has one; with no such area select within the merged group unless the
    tap-motion map is empty, in which case select nothing. *)
Definition resolveTapMotion (tapMotions : TapMotionMap)
  (hitAreas : list string) : M unit :=
  match firstConfigured tapMotions hitAreas with
  | Some (_, group) => playRandomMotion (Some group)
  | None =>
      match tapMotions with
      | [] => ret tt
      | _ :: _ => playRandomMotion (Some (getMergedMotionGroup tapMotions))
      end
  end.

End TapSpec.

(* ------------------------------------------------------------------------- *)
(** ** Drag and tap gestures ([setupModelInteractions]) *)

Module Drag.

Local Open Scope float_scope.

(** The variables the pointer handlers close over, and the position of the
    model ([model.x] and [model.position.x] are the same field). *)
Record State : Type := mkState {
  dragging : bool;
  pointerX : float;
  pointerY : float;
  isTap : bool;
  model_x : float;
  model_y : float
}.

(** The pointer events the handlers are registered for, with [e.button]
    and [e.global]. *)
Inductive Event : Type :=
| pointerdown (button : Z) (global_x global_y : float)
| pointermove (global_x global_y : float)
| pointerup (global_x global_y : float)
| pointerupoutside.

(** [let dragging = false; let pointerX = 0; let pointerY = 0;
     let isTap = false], for a model at [(x, y)]. *)
Definition initial (x y : float) : State := mkState false 0 0 false x y.

Definition dragThreshold : float := 5.

(** The pointer moves to the points [ps] in turn. *)
Definition moves (ps : list (float * float)) : list Event :=
  map (fun p => pointermove (fst p) (snd p)) ps.

Definition position (s : State) : float * float := (model_x s, model_y s).

(** Where the model is put when the pointer is at [p] during a drag. *)
Definition placed (s : State) (p : float * float) : float * float :=
  (fst p - pointerX s, snd p - pointerY s).

Section Handlers.

(** [Math.hypot] of two arguments, as the engine computes it. *)
Variable Math_hypot : float -> float -> float.

(** One event: the new state and the calls [handleTapMotion(model, x, y)]
    it makes, as the points passed. *)
Definition step (s : State) (e : Event) : State * list (float * float) :=
  match e with
  | pointerdown button gx gy =>
      if (button =? 0)%Z
      then (mkState true (gx - model_x s) (gy - model_y s) true
              (model_x s) (model_y s), [])
      else (s, [])
  | pointermove gx gy =>
      if dragging s
      then
        let newX := gx - pointerX s in
        let newY := gy - pointerY s in
        let dx := newX - model_x s in
        let dy := newY - model_y s in
        let isTap' :=
          if dragThreshold <? Math_hypot dx dy then false else isTap s in
        (mkState (dragging s) (pointerX s) (pointerY s) isTap' newX newY, [])
      else (s, [])
  | pointerup gx gy =>
      if dragging s
      then
        (mkState false (pointerX s) (pointerY s) (isTap s)
           (model_x s) (model_y s),
         if isTap s then [(gx, gy)] else [])
      else (s, [])
  | pointerupoutside =>
      (mkState false (pointerX s) (pointerY s) (isTap s)
         (model_x s) (model_y s), [])
  end.

(** A sequence of events, with the tap calls in order. *)
Fixpoint run (s : State) (es : list Event) : State * list (float * float) :=
  match es with
  | [] => (s, [])
  | e :: rest =>
      let (s1, taps1) := step s e in
      let (s2, taps2) := run s1 rest in
      (s2, taps1 ++ taps2)
  end.

(** [Math.hypot] of the differences between [q] and [p] exceeds the
    threshold. *)
Definition far (p q : float * float) : bool :=
  dragThreshold <? Math_hypot (fst q - fst p) (snd q - snd p).

(** At some position of [qs] the test against the start [p] succeeds: the
    cumulative displacement exceeded the threshold. *)
Definition strayed (p : float * float) (qs : list (float * float)) : bool :=
  existsb (far p) qs.

(** At some position of [qs] the test against the position before it
    ([p] before the first) succeeds: one move exceeded the threshold. *)
Fixpoint jumped (p : float * float) (qs : list (float * float)) : bool :=
  match qs with
  | [] => false
  | q :: rest => far p q || jumped q rest
  end.

End Handlers.

End Drag.

(* ------------------------------------------------------------------------- *)
(** ** Statements that change a state and may throw *)

Module Js.

(** A statement completes with a value or throws an error. *)
Inductive Result (A : Type) : Type :=
| Ok (a : A)
| Throw (error : string).
Arguments Ok {A} a.
Arguments Throw {A} error.

(** The state of a promise. *)
Inductive PromiseState : Type := Pending | Fulfilled | Rejected.

Section Statements.
Context {S : Type}.

Definition M (A : Type) : Type := S -> Result A * S.

Definition ret {A : Type} (a : A) : M A := fun s => (Ok a, s).

Definition bind {A B : Type} (m : M A) (k : A -> M B) : M B :=
  fun s =>
    match m s with
    | (Ok a, s') => k a s'
    | (Throw error, s') => (Throw error, s')
    end.

Definition throw {A : Type} (error : string) : M A :=
  fun s => (Throw error, s).

(** [try { body } catch (error) { handler }]. *)
Definition try_catch (body : M unit) (handler : string -> M unit) : M unit :=
  fun s =>
    match body s with
    | (Ok a, s') => (Ok a, s')
    | (Throw error, s') => handler error s'
    end.

(** [try { body } finally { final }]: [final] runs either way, and the
    outcome is the one of [body] unless [final] throws. *)
Definition try_finally (body : M unit) (final : M unit) : M unit :=
  fun s =>
    match body s with
    | (outcome, s') =>
        match final s' with
        | (Ok _, s'') => (outcome, s'')
        | (Throw error, s'') => (Throw error, s'')
        end
    end.

(** [await p] when [p] has settled with [outcome]. *)
Definition await {A : Type} (outcome : Result A) : M A :=
  fun s => (outcome, s).

(** The promise of an [async] function, or of an executor, whose body
    ended with [outcome] without having settled it. *)
Definition settled {A : Type} (outcome : Result A) : PromiseState :=
  match outcome with Ok _ => Fulfilled | Throw _ => Rejected end.

End Statements.

Arguments M : clear implicits.

Notation "x <- m ;; k" := (bind m (fun x => k))
  (at level 100, m at next level, right associativity).
Notation "m ;; k" := (bind m (fun _ => k))
  (at level 100, right associativity).

End Js.

(* ------------------------------------------------------------------------- *)
(** ** Speech tasks ([use-audio-task.ts]) *)

Module AudioTask.
Import Js.

Local Open Scope string_scope.

(** [DisplayText] of the web-socket service, by the fields the hook reads. *)
Record DisplayText : Type := mkDisplayText {
  text : string;
  name : string;
  avatar : string
}.

(** An element of [expressions: string[] | number[]]. *)
Inductive Expression : Type :=
| expressionName (s : string)
| expressionIndex (n : float).

(** [interface AudioTaskOptions]; [None] is an absent, [null] or
    [undefined] field. *)
Record AudioTaskOptions : Type := mkOptions {
  audioBase64 : string;
  volumes : list float;
  sliceLength : float;
  displayText : option DisplayText;
  expressions : option (list Expression);
  speaker_uid : option string;
  forwarded : option bool
}.

(** The messages sent over the web socket. *)
Inductive Message : Type :=
| audio_play_start (display_text : DisplayText) (forwarded : bool)
| frontend_playback_complete.

(** Calls into collaborators, as recorded in the trace.  Console messages
    are recorded by their fixed text. *)
Inductive Effect : Type :=
| console_log (msg : string)
| console_warn (msg : string)
| console_error (msg : string)
| appendResponse (text : string)
| appendAIMessage (text name avatar : string)
| setSubtitleText (text : string)
| sendMessage (m : Message)
| model_expression (e : Expression)
| model_speak (audioDataUrl : string)
| toaster_create (type : string) (duration : Z)
| setTimeout (ms : Z).

(** The callbacks handed to [model.speak]. *)
Inductive Callback : Type :=
| onFinish
| onError (error : string).

(** What a call of [model.speak] does before it returns: throw, or return,
    possibly having called one of the callbacks already. *)
Inductive SpeakResult : Type :=
| speak_throws (error : string)
| speak_returns (during : option Callback).

(** The model handle at [window.live2dModel], by its behaviour:
    [expression] throws the error it returns, if any. *)
Record Model : Type := mkModel {
  expression : Expression -> option string;
  speak : string -> SpeakResult
}.

(** The state of one call of [handleAudioPlayback]: the trace so far, the
    promise it returned, the variable [isFinished], whether [model.speak]
    holds the callbacks, and whether the [checkFinished] timer is set. *)
Record Run : Type := mkRun {
  trace : list Effect;
  promise : PromiseState;
  isFinished : bool;
  listening : bool;
  polling : bool
}.

Definition start : Run := mkRun [] Pending false false false.

(** Statements of the executor. *)
Definition Exec (A : Type) : Type := Js.M Run A.

Definition emit (e : Effect) : Exec unit :=
  fun r =>
    (Ok tt, mkRun (trace r ++ [e]) (promise r) (isFinished r) (listening r)
              (polling r)).

(** [resolve()]: settles the promise unless it is settled already. *)
Definition resolve : Exec unit :=
  fun r =>
    (Ok tt,
     mkRun (trace r)
       (match promise r with Pending => Fulfilled | p => p end)
       (isFinished r) (listening r) (polling r)).

Definition set_isFinished (b : bool) : Exec unit :=
  fun r => (Ok tt, mkRun (trace r) (promise r) b (listening r) (polling r)).

Definition set_listening (b : bool) : Exec unit :=
  fun r => (Ok tt, mkRun (trace r) (promise r) (isFinished r) b (polling r)).

Definition set_polling (b : bool) : Exec unit :=
  fun r => (Ok tt, mkRun (trace r) (promise r) (isFinished r) (listening r) b).

Definition when (b : bool) (m : Exec unit) : Exec unit :=
  if b then m else ret tt.

(** A string is truthy when it is not empty; an optional boolean when it
    is [true]. *)
Definition nonempty (s : string) : bool := negb (String.eqb s "").

Definition isTrue (b : option bool) : bool :=
  match b with Some true => true | _ => false end.

(** The body of a callback handed to [model.speak]. *)
Definition callback (c : Callback) : Exec unit :=
  match c with
  | onFinish =>
      emit (console_log "Audio playback completed") ;;
      set_isFinished true ;;
      resolve
  | onError error =>
      emit (console_error "Audio playback error:") ;;
      set_isFinished true ;;
      resolve
  end.

(** [const checkFinished = () => { if (!isFinished) setTimeout(checkFinished, 100) }]. *)
Definition checkFinished : Exec unit :=
  fun r =>
    if isFinished r
    then set_polling false r
    else (emit (setTimeout 100) ;; set_polling true) r.

(** The block [if (displayText) { ... }]. *)
Definition updateDisplayText (options : AudioTaskOptions) : Exec unit :=
  match displayText options with
  | Some dt =>
      emit (appendResponse (text dt)) ;;
      emit (appendAIMessage (text dt) (name dt) (avatar dt)) ;;
      when (nonempty (audioBase64 options)) (emit (setSubtitleText (text dt))) ;;
      when (negb (isTrue (forwarded options)))
        (emit (sendMessage (audio_play_start dt true)))
  | None => ret tt
  end.

(** [model.expression(e)] and [model.speak(url, { onFinish, onError })]. *)
Definition call_expression (model : Model) (e : Expression) : Exec unit :=
  emit (model_expression e) ;;
  match expression model e with
  | Some error => throw error
  | None => ret tt
  end.

Definition call_speak (model : Model) (audioDataUrl : string) : Exec unit :=
  emit (model_speak audioDataUrl) ;;
  match speak model audioDataUrl with
  | speak_throws error => throw error
  | speak_returns during =>
      set_listening true ;;
      match during with
      | Some c => callback c
      | None => ret tt
      end
  end.

(** [expressions?.[0]]. *)
Definition firstExpression (options : AudioTaskOptions) : option Expression :=
  match expressions options with
  | Some (e :: _) => Some e
  | _ => None
  end.

(** The body of the [try] block: set the expression, start the audio with
    lip sync or resolve at once, and start polling [isFinished]. *)
Definition setupPlayback (model : Model) (options : AudioTaskOptions)
  : Exec unit :=
  match firstExpression options with
  | Some e =>
      emit (console_log "Setting expression to:") ;;
      call_expression model e
  | None => ret tt
  end ;;
  (if nonempty (audioBase64 options)
   then
     emit (console_log "Starting PIXI Live2D speak with lipsync") ;;
     call_speak model ("data:audio/wav;base64," ++ audioBase64 options)
   else resolve) ;;
  checkFinished.

(** The body of the [catch] block. *)
Definition reportSetupError (error : string) : Exec unit :=
  emit (console_error "Audio playback setup error:") ;;
  emit (toaster_create "error" 2000) ;;
  resolve.

(** The executor passed to [new Promise] by [handleAudioPlayback]:
    [aiState] is [stateRef.current.aiState], [live2dModel] is
    [window.live2dModel]. *)
Definition executor (aiState : string) (live2dModel : option Model)
  (options : AudioTaskOptions) : Exec unit :=
  if String.eqb aiState "interrupted"
  then
    emit (console_warn "Audio playback blocked by interruption state.") ;;
    resolve
  else
    updateDisplayText options ;;
    match live2dModel with
    | None =>
        emit (console_error "PIXI Live2D model not found on window.live2dModel") ;;
        resolve
    | Some model => try_catch (setupPlayback model options) reportSetupError
    end.

(** [new Promise(executor)]: an executor that throws rejects the promise
    unless it is settled already. *)
Definition new_Promise (executor : Exec unit) : Run :=
  match executor start with
  | (Ok _, r) => r
  | (Throw _, r) =>
      mkRun (trace r)
        (match promise r with Pending => Rejected | p => p end)
        (isFinished r) (listening r) (polling r)
  end.

Definition handleAudioPlayback (aiState : string) (live2dModel : option Model)
  (options : AudioTaskOptions) : Run :=
  new_Promise (executor aiState live2dModel options).

(** What happens after the executor returned: the model handle calls one
    of the callbacks it holds, or the timer set by [checkFinished] fires. *)
Inductive Later : Type :=
| called (c : Callback)
| timer.

Definition deliver (r : Run) (ev : Later) : Run :=
  match ev with
  | called c => if listening r then snd (callback c r) else r
  | timer => if polling r then snd (checkFinished r) else r
  end.

Definition deliverAll (r : Run) (evs : list Later) : Run :=
  fold_left deliver evs r.

Section Queue.

(** The task queue of [@/utils/task-queue], by its [addTask]; a queued
    task [() => handleAudioPlayback(options)] is given by its options. *)
Variable Queue : Type.
Variable addTask : AudioTaskOptions -> Queue -> Queue.

(** [addAudioTask]: the trace of the call and the queue after it. *)
Definition addAudioTask (aiState : string) (options : AudioTaskOptions)
  (audioTaskQueue : Queue) : list Effect * Queue :=
  if String.eqb aiState "interrupted"
  then ([console_log "Skipping audio task due to interrupted state"],
        audioTaskQueue)
  else ([console_log "Adding audio task to queue"],
        addTask options audioTaskQueue).

End Queue.

(** Effects on the chat history, the subtitle and the web socket. *)
Definition isDisplayEffect (e : Effect) : bool :=
  match e with
  | appendResponse _ | appendAIMessage _ _ _ | setSubtitleText _
  | sendMessage _ => true
  | _ => false
  end.

(** Effects on the model handle. *)
Definition isModelEffect (e : Effect) : bool :=
  match e with
  | model_expression _ | model_speak _ => true
  | _ => false
  end.

End AudioTask.

(* ------------------------------------------------------------------------- *)
(** ** Vocabulary for statements about speech tasks *)

Module AudioSpec.
Import AudioTask.

(** What the block [if (displayText) { ... }] records. *)
Definition displayTrace (options : AudioTaskOptions) : list Effect :=
  trace (snd (updateDisplayText options start)).

(** No effect of the list touches the chat history, the subtitle or the
    web socket; none touches the model handle. *)
Definition noDisplayEffect (es : list Effect) : bool :=
  forallb (fun e => negb (isDisplayEffect e)) es.

Definition noModelEffect (es : list Effect) : bool :=
  forallb (fun e => negb (isModelEffect e)) es.

(** Sample data. *)
Definition sampleText : DisplayText :=
  mkDisplayText "Hello" "Avatar" "avatar.png".

Definition sampleOptions (audio : string) (fwd : option bool)
  : AudioTaskOptions :=
  mkOptions audio [] 20%float (Some sampleText)
    (Some [expressionIndex 3%float]) None fwd.

Definition quietModel : Model :=
  mkModel (fun _ => None) (fun _ => speak_returns None).

Definition brokenModel : Model :=
  mkModel (fun _ => None) (fun _ => speak_throws "decode error").

End AudioSpec.

(* ------------------------------------------------------------------------- *)
(** ** Model loading ([loadModel], [setupModel]) *)

Module Lifecycle.
Import Js.

Local Open Scope string_scope.
Local Open Scope list_scope.

(** [ModelInfo] of the configuration context, by the fields a load reads. *)
Record ModelInfo : Type := mkModelInfo {
  url : string;
  pointerInteractive : option bool;
  idleMotionGroupName : option string
}.

(** The arguments of [Live2DModel.from]. *)
Record LoadRequest : Type := mkRequest {
  source : string;
  autoHitTest : bool;
  autoFocus : bool;
  autoUpdate : bool;
  idleMotionGroup : option string
}.

Inductive Log : Type :=
| log (msg : string)
| error (msg : string).

(** The state of the hook.  A model handle is a number; [stage] is the
    list of children of [appRef.current.stage], [None] without an
    application; [destroyed] and [interactive] list the handles destroyed
    and made interactive so far. *)
Record Hook : Type := mkHook {
  stage : option (list nat);
  modelRef : option nat;
  loadingRef : bool;
  isLoading : bool;
  isModelReady : bool;
  destroyed : list nat;
  interactive : list nat;
  console : list Log
}.

Definition Stmt (A : Type) : Type := Js.M Hook A.

Definition console_write (l : Log) : Stmt unit :=
  fun h =>
    (Ok tt,
     mkHook (stage h) (modelRef h) (loadingRef h) (isLoading h)
       (isModelReady h) (destroyed h) (interactive h) (console h ++ [l])).

Definition set_loadingRef (b : bool) : Stmt unit :=
  fun h =>
    (Ok tt,
     mkHook (stage h) (modelRef h) b (isLoading h) (isModelReady h)
       (destroyed h) (interactive h) (console h)).

Definition setIsLoading (b : bool) : Stmt unit :=
  fun h =>
    (Ok tt,
     mkHook (stage h) (modelRef h) (loadingRef h) b (isModelReady h)
       (destroyed h) (interactive h) (console h)).

Definition setIsModelReady (b : bool) : Stmt unit :=
  fun h =>
    (Ok tt,
     mkHook (stage h) (modelRef h) (loadingRef h) (isLoading h) b
       (destroyed h) (interactive h) (console h)).

Definition without (model : nat) (children : list nat) : list nat :=
  filter (fun c => negb (Nat.eqb c model)) children.

(** [setupModel]. *)
Definition setupModel (modelInfo : option ModelInfo) (model : nat)
  : Stmt unit :=
  fun h =>
    match stage h, modelInfo with
    | Some children, Some _ =>
        let (children, gone) :=
          match modelRef h with
          | Some old => (without old children, destroyed h ++ [old])
          | None => (children, destroyed h)
          end in
        (Ok tt,
         mkHook (Some (children ++ [model])) (Some model) (loadingRef h)
           (isLoading h) true gone (interactive h ++ [model]) (console h))
    | _, _ => (Ok tt, h)
    end.

(** [loadModel] up to its first [await]: the state, and the request made
    of the loader unless the call returned early. *)
Definition loadModel_begin (modelInfo : option ModelInfo) (h : Hook)
  : Hook * option LoadRequest :=
  match modelInfo, stage h with
  | Some info, Some _ =>
      if String.eqb (url info) "" then (h, None)
      else if loadingRef h then (h, None)
      else
        (mkHook (stage h) (modelRef h) true true (isModelReady h)
           (destroyed h) (interactive h)
           (console h ++ [log "Loading model:"]),
         Some (mkRequest (url info) true
                 (match pointerInteractive info with
                  | Some b => b
                  | None => false
                  end)
                 true (idleMotionGroupName info)))
  | _, _ => (h, None)
  end.

(** [loadModel] from the moment the loader's promise settled with
    [loaded]: the rest of the [try], the [catch] and the [finally]. *)
Definition loadModel_resume (modelInfo : option ModelInfo)
  (loaded : Result nat) : Stmt unit :=
  try_finally
    (try_catch
       (model <- await loaded ;; setupModel modelInfo model)
       (fun _ => console_write (error "Failed to load Live2D model:")))
    (set_loadingRef false ;; setIsLoading false).

(** One whole call with nothing in between: the promise it returns, once
    settled, and the state; [loader] gives what the loader's promise
    settles with. *)
Definition loadModel (modelInfo : option ModelInfo)
  (loader : LoadRequest -> Result nat) (h : Hook) : PromiseState * Hook :=
  match loadModel_begin modelInfo h with
  | (h1, None) => (Fulfilled, h1)
  | (h1, Some request) =>
      let (outcome, h2) := loadModel_resume modelInfo (loader request) h1 in
      (settled outcome, h2)
  end.

End Lifecycle.

(* ------------------------------------------------------------------------- *)
(** ** Sample data for model loading *)

Module LifecycleSamples.
Import Js Lifecycle.

Local Open Scope string_scope.

Definition sampleInfo : ModelInfo :=
  mkModelInfo "models/shizuku/shizuku.model.json" None (Some "idle").

(** A hook with an application, showing the handle [1]. *)
Definition showing : Hook :=
  mkHook (Some [1%nat]) (Some 1%nat) false false true [] [1%nat] [].

Definition failingLoader (request : LoadRequest) : Result nat :=
  Throw "404".

End LifecycleSamples.


(* ------------------------------------------------------------------------- *)
(** ** Vocabulary for statements about gestures *)

Module DragSpec.
Import Drag.

Local Open Scope float_scope.

(** The event is a press of the primary button. *)
Definition isPress (e : Event) : bool :=
  match e with
  | pointerdown button _ _ => (button =? 0)%Z
  | _ => false
  end.

(** The event ends a drag. *)
Definition isRelease (e : Event) : bool :=
  match e with
  | pointerup _ _ | pointerupoutside => true
  | _ => false
  end.

Definition presses (es : list Event) : nat :=
  List.length (filter isPress es).

(** A tap is still possible in the state. *)
Definition armed (s : State) : bool := dragging s && isTap s.

(** An engine to run the handlers on in examples: the rounded square root
    of the rounded sum of the rounded squares. *)
Definition hypot_sqrt (x y : float) : float := sqrt (x * x + y * y).

End DragSpec.

(* ------------------------------------------------------------------------- *)
(** ** Hover and context menu ([setupModelInteractions]) *)

Module Hover.
Import Drag.

Local Open Scope string_scope.
Local Open Scope list_scope.

(** What the handlers are set up with: [isPet], whether [window.electron]
    is there, and whether it has an [ipcRenderer]. *)
Record Shell : Type := mkShell {
  isPet : bool;
  electronApi : bool;
  ipcRenderer : bool
}.

(** Messages to the desktop shell. *)
Inductive Ipc : Type :=
| update_component_hover (component : string) (hovering : bool)
| show_context_menu.

(** The events of the model: those of the drag handlers and those of the
    handlers set up in pet mode. *)
Inductive Event : Type :=
| gesture (e : Drag.Event)
| pointerenter
| pointerleave
| rightdown.

Inductive Effect : Type :=
| tap (x y : float)
| send (m : Ipc)
| preventDefault.

(** [electronApi.ipcRenderer?.send(...)]. *)
Definition ipc_send (shell : Shell) (m : Ipc) : list Effect :=
  if ipcRenderer shell then [send m] else [].

Section Handlers.

(** [Math.hypot] of two arguments, as the engine computes it. *)
Variable Math_hypot : float -> float -> float.

(** One event.  The hover and right-click handlers exist only when
    [isPet && electronApi] held at set-up. *)
Definition step (shell : Shell) (s : State) (ev : Event)
  : State * list Effect :=
  match ev with
  | gesture e =>
      let (s', taps) := Drag.step Math_hypot s e in
      (s', map (fun p => tap (fst p) (snd p)) taps)
  | pointerenter =>
      (s,
       if isPet shell && electronApi shell
       then ipc_send shell (update_component_hover "live2d-model" true)
       else [])
  | pointerleave =>
      (s,
       if isPet shell && electronApi shell
       then
         if dragging s then []
         else ipc_send shell (update_component_hover "live2d-model" false)
       else [])
  | rightdown =>
      (s,
       if isPet shell && electronApi shell
       then preventDefault :: ipc_send shell show_context_menu
       else [])
  end.

Fixpoint run (shell : Shell) (s : State) (evs : list Event)
  : State * list Effect :=
  match evs with
  | [] => (s, [])
  | ev :: rest =>
      let (s1, out1) := step shell s ev in
      let (s2, out2) := run shell s1 rest in
      (s2, out1 ++ out2)
  end.

End Handlers.

(** The drag events among the events, and the taps among the effects. *)
Definition gestures (evs : list Event) : list Drag.Event :=
  flat_map (fun ev => match ev with gesture e => [e] | _ => [] end) evs.

Definition taps (out : list Effect) : list (float * float) :=
  flat_map (fun x => match x with tap x y => [(x, y)] | _ => [] end) out.

Definition isShellEffect (x : Effect) : bool :=
  match x with tap _ _ => false | _ => true end.

Definition isHoverLeft (x : Effect) : bool :=
  match x with
  | send (update_component_hover _ false) => true
  | _ => false
  end.

Definition endsDrag (ev : Event) : bool :=
  match ev with
  | gesture e => DragSpec.isRelease e
  | _ => false
  end.

End Hover.


(* ------------------------------------------------------------------------- *)
(** ** More vocabulary for statements about speech tasks *)

Module PlaybackSpec.
Import Js AudioTask.

Local Open Scope string_scope.
Local Open Scope list_scope.

(** The URL handed to [model.speak]. *)
Definition speakUrl (options : AudioTaskOptions) : string :=
  "data:audio/wav;base64," ++ audioBase64 options.

(** Setting the expression throws; starting the audio throws. *)
Definition expressionThrows (model : Model) (options : AudioTaskOptions)
  : bool :=
  match firstExpression options with
  | Some e => match expression model e with Some _ => true | None => false end
  | None => false
  end.

Definition speakThrows (model : Model) (options : AudioTaskOptions) : bool :=
  match speak model (speakUrl options) with
  | speak_throws _ => true
  | speak_returns _ => false
  end.

(** Setting up playback throws: the expression throws, or the task has
    audio and starting it throws. *)
Definition setupThrows (model : Model) (options : AudioTaskOptions) : bool :=
  expressionThrows model options
  || (nonempty (audioBase64 options) && speakThrows model options).

(** The calls a task makes on the model handle, in order. *)
Definition modelCalls (aiState : string) (live2dModel : option Model)
  (options : AudioTaskOptions) : list Effect :=
  if String.eqb aiState "interrupted" then []
  else
    match live2dModel with
    | None => []
    | Some model =>
        match firstExpression options with
        | Some e => [model_expression e]
        | None => []
        end
        ++ (if negb (expressionThrows model options)
               && nonempty (audioBase64 options)
            then [model_speak (speakUrl options)]
            else [])
    end.

Definition isTimeout (e : Effect) : bool :=
  match e with setTimeout _ => true | _ => false end.

Definition isToast (e : Effect) : bool :=
  match e with toaster_create _ _ => true | _ => false end.

(** Effects of the callbacks and of the polling timer. *)
Definition isLaterEffect (e : Effect) : bool :=
  match e with
  | console_log _ | console_error _ | setTimeout _ => true
  | _ => false
  end.

Definition timeouts (es : list Effect) : nat :=
  List.length (filter isTimeout es).

Definition isCalled (ev : Later) : bool :=
  match ev with called _ => true | timer => false end.

Definition timers (evs : list Later) : nat :=
  List.length (filter (fun ev => negb (isCalled ev)) evs).

End PlaybackSpec.

(* ------------------------------------------------------------------------- *)
(** ** Application set-up and teardown ([cleanupModel], [cleanupApp]) *)

Module Teardown.
Import Js Lifecycle.

Local Open Scope string_scope.
Local Open Scope list_scope.

(** The hook before its first effect. *)
Definition initial : Hook := mkHook None None false false false [] [] [].

(** The effect that creates the application: only without one, and only
    once [canvasRef.current] is there. *)
Definition initApp (canvas : bool) (h : Hook) : Hook :=
  match stage h with
  | None =>
      if canvas
      then mkHook (Some []) (modelRef h) (loadingRef h) (isLoading h)
             (isModelReady h) (destroyed h) (interactive h) (console h)
      else h
  | Some _ => h
  end.

(** [cleanupModel]: with a current handle and an application, take the
    handle off the stage, destroy it and forget it; in any case report the
    model as not ready. *)
Definition cleanupModel (h : Hook) : Hook :=
  let h1 :=
    match modelRef h, stage h with
    | Some model, Some children =>
        mkHook (Some (without model children)) None (loadingRef h)
          (isLoading h) (isModelReady h) (destroyed h ++ [model])
          (interactive h) (console h)
    | _, _ => h
    end in
  mkHook (stage h1) (modelRef h1) (loadingRef h1) (isLoading h1) false
    (destroyed h1) (interactive h1) (console h1).

(** [cleanupApp]: with an application, clean up the current handle if
    there is one, empty the stage and drop the application. *)
Definition cleanupApp (h : Hook) : Hook :=
  match stage h with
  | Some _ =>
      let h1 :=
        match modelRef h with
        | Some _ => cleanupModel h
        | None => h
        end in
      mkHook None (modelRef h1) (loadingRef h1) (isLoading h1)
        (isModelReady h1) (destroyed h1) (interactive h1) (console h1)
  | None => h
  end.

(** What can happen to the hook: the application effect and its
    clean-up, a call of [loadModel] reaching its [await], the loader
    settling for such a call made with [modelInfo], and the clean-up of
    the model. *)
Inductive Op : Type :=
| op_initApp (canvas : bool)
| op_cleanupApp
| op_cleanupModel
| op_load (modelInfo : option ModelInfo)
| op_loaded (modelInfo : option ModelInfo) (loaded : Result nat).

Definition apply (h : Hook) (op : Op) : Hook :=
  match op with
  | op_initApp canvas => initApp canvas h
  | op_cleanupApp => cleanupApp h
  | op_cleanupModel => cleanupModel h
  | op_load modelInfo => fst (loadModel_begin modelInfo h)
  | op_loaded modelInfo loaded => snd (loadModel_resume modelInfo loaded h)
  end.

Definition applyAll (h : Hook) (ops : list Op) : Hook :=
  fold_left apply ops h.

(** The stage shows the current handle and nothing else; a model reported
    ready is there; and the two loading flags agree. *)
Definition consistent (h : Hook) : Prop :=
  match stage h, modelRef h with
  | Some children, Some model => children = [model]
  | Some children, None => children = []
  | None, Some _ => False
  | None, None => True
  end /\
  (isModelReady h = true -> modelRef h <> None) /\
  loadingRef h = isLoading h.

End Teardown.

(* ------------------------------------------------------------------------- *)
(** ** Playing audio from outside the hook ([playAudioWithLipSync]) *)

Module LipSync.
Import Js.

Local Open Scope string_scope.
Local Open Scope list_scope.

(** The [Audio] element by its behaviour: the error thrown by the
    constructor and by [load()], if any. *)
Record AudioElement : Type := mkAudio {
  constructor_throws : option string;
  load_throws : option string
}.

(** What the element does afterwards: it fires one of the three events
    listened for, or the promise of a call of [audio.play()] rejects. *)
Inductive AudioEvent : Type :=
| canplaythrough
| play_rejected (reason : string)
| ended
| error_event.

(** The promise returned, the URL the element was made for, whether the
    listeners were added, and the calls of [audio.play()] so far. *)
Record Playback : Type := mkPlayback {
  settledAs : PromiseState;
  src : option string;
  listens : bool;
  plays : nat
}.

Definition settle (how : PromiseState) (p : Playback) : Playback :=
  mkPlayback (match settledAs p with Pending => how | s => s end)
    (src p) (listens p) (plays p).

(** [playAudioWithLipSync(audioBase64, volumes)] up to the return of the
    executor. *)
Definition playAudioWithLipSync (audio : AudioElement)
  (audioBase64 : string) (volumes : list float) : Playback :=
  match constructor_throws audio with
  | Some _ => mkPlayback Rejected None false 0
  | None =>
      let p :=
        mkPlayback Pending (Some ("data:audio/wav;base64," ++ audioBase64)%string)
          true 0 in
      match load_throws audio with
      | Some _ => settle Rejected p
      | None => p
      end
  end.

(** One later event. *)
Definition on (p : Playback) (ev : AudioEvent) : Playback :=
  match ev with
  | canplaythrough =>
      if listens p
      then mkPlayback (settledAs p) (src p) (listens p) (S (plays p))
      else p
  | play_rejected _ => if (0 <? plays p)%nat then settle Rejected p else p
  | ended => if listens p then settle Fulfilled p else p
  | error_event => if listens p then settle Rejected p else p
  end.

Definition onAll (p : Playback) (evs : list AudioEvent) : Playback :=
  fold_left on evs p.

(** The event settles a pending promise. *)
Definition settles (ev : AudioEvent) : bool :=
  match ev with
  | canplaythrough => false
  | _ => true
  end.

(** Events as an element that plays can produce them: a call of
    [audio.play()] is rejected only after [canplaythrough] made it. *)
Fixpoint playable (played : bool) (evs : list AudioEvent) : bool :=
  match evs with
  | [] => true
  | canplaythrough :: rest => playable true rest
  | play_rejected _ :: rest => played && playable played rest
  | _ :: rest => playable played rest
  end.

End LipSync.

(* ========================================================================= *)
(** * Properties *)

(** ** Dictionary lemmas *)

Section DictFacts.
Context {V : Type}.
Implicit Types o : obj V.

Lemma get_set_same o k v : get (set o k v) k = Some v.
Proof.
  induction o as [|[k' v'] rest IH]; simpl.
  - now rewrite String.eqb_refl.
  - destruct (String.eqb k' k) eqn:E; simpl; rewrite E; auto.
Qed.

Lemma get_set_other o k k' v :
  k <> k' -> get (set o k v) k' = get o k'.
Proof.
  intros Hne. induction o as [|[k0 v0] rest IH]; simpl.
  - destruct (String.eqb_spec k k'); congruence.
  - destruct (String.eqb_spec k0 k) as [->|Hk]; simpl.
    + destruct (String.eqb_spec k k'); congruence.
    + now rewrite IH.
Qed.

Lemma get_Some_In o k v : get o k = Some v -> In k (keys o).
Proof.
  induction o as [|[k' v'] rest IH]; simpl; [discriminate|].
  destruct (String.eqb_spec k' k); auto.
Qed.

Lemma In_get_Some o k : In k (keys o) -> exists v, get o k = Some v.
Proof.
  induction o as [|[k' v'] rest IH]; simpl; [tauto|].
  intros [->|H].
  - rewrite String.eqb_refl. eauto.
  - destruct (String.eqb k' k); eauto.
Qed.

Lemma get_None_notin o k : get o k = None <-> ~ In k (keys o).
Proof.
  split.
  - intros Hn Hin. apply In_get_Some in Hin as [v Hv]. congruence.
  - intros Hn. destruct (get o k) eqn:E; auto.
    apply get_Some_In in E. contradiction.
Qed.

Lemma keys_set_new o k v :
  get o k = None -> keys (set o k v) = keys o ++ [k].
Proof.
  induction o as [|[k' v'] rest IH]; simpl; auto.
  destruct (String.eqb k' k); [discriminate|].
  intros H. simpl. now rewrite (IH H).
Qed.

Lemma keys_set_old o k v :
  get o k <> None -> keys (set o k v) = keys o.
Proof.
  induction o as [|[k' v'] rest IH]; simpl; [congruence|].
  destruct (String.eqb k' k); simpl; auto.
  intros H. now rewrite (IH H).
Qed.

Lemma wf_set o k v : wf o -> wf (set o k v).
Proof.
  unfold wf. intros Hwf. destruct (get o k) eqn:E.
  - rewrite keys_set_old; congruence.
  - rewrite keys_set_new by assumption.
    apply NoDup_app; auto.
    + constructor; [simpl; tauto | constructor].
    + intros x Hx [<-|[]]. now apply get_None_notin in E.
Qed.

End DictFacts.

(* ------------------------------------------------------------------------- *)
(** ** Weighted selection *)

Section WeightedSelection.
Import Motion.
Local Open Scope float_scope.

Lemma remainder_snoc (random : float) (es : list (string * float))
  (e : string * float) :
  remainder random (es ++ [e]) = remainder random es - snd e.
Proof. unfold remainder. now rewrite fold_left_app. Qed.

Lemma remainder_cons (random : float) (e : string * float)
  (es : list (string * float)) :
  remainder random (e :: es) = remainder (random - snd e) es.
Proof. reflexivity. Qed.

(** [find_motion] stops at the first entry that brings the remainder to
    zero or below, starts that motion and nothing else, and draws nothing. *)
Lemma find_motion_Some (es : list (string * float)) :
  forall random w motion weight w',
    find_motion random es w = (Some (motion, weight), w') ->
    exists pre post,
      es = pre ++ (motion, weight) :: post /\
      w' = mkWorld (rand w) (drawn w) (motions w ++ [motion]) /\
      (forall pre1 e pre2,
          pre = pre1 ++ e :: pre2 ->
          (remainder random (pre1 ++ [e]) <=? 0) = false) /\
      (remainder random (pre ++ [(motion, weight)]) <=? 0) = true.
Proof.
  induction es as [|[k wt] es IH]; intros random w motion weight w' H;
    simpl in H.
  - discriminate.
  - destruct (random - wt <=? 0) eqn:E.
    + unfold bind, model_motion, ret in H. injection H as <- <- <-.
      exists [], es. repeat split.
      * intros [|? ?] ? ? Hp; discriminate.
      * exact E.
    + apply IH in H as (pre & post & -> & -> & Hpre & Hle).
      exists ((k, wt) :: pre), post. repeat split.
      * intros [|e1 pre1] e pre2 Hp; injection Hp as <- Hp.
        -- exact E.
        -- rewrite <- app_comm_cons, remainder_cons. simpl snd.
           eapply Hpre. eassumption.
      * exact Hle.
Qed.

(** When [find_motion] finds nothing, no entry brought the remainder to
    zero or below, and the world is untouched. *)
Lemma find_motion_None (es : list (string * float)) :
  forall random w w',
    find_motion random es w = (None, w') ->
    w' = w /\
    (forall pre e post,
        es = pre ++ e :: post ->
        (remainder random (pre ++ [e]) <=? 0) = false).
Proof.
  induction es as [|[k wt] es IH]; intros random w w' H; simpl in H.
  - unfold ret in H. injection H as <-. split; [reflexivity|].
    intros [|? ?] ? ? Hp; discriminate.
  - destruct (random - wt <=? 0) eqn:E.
    + unfold bind, model_motion, ret in H. discriminate.
    + apply IH in H as [-> Hpos]. split; [reflexivity|].
      intros [|e1 pre] e post Hp; injection Hp as <- Hp.
      * exact E.
      * rewrite <- app_comm_cons, remainder_cons. simpl snd.
        eapply Hpos. eassumption.
Qed.

(** Conversely, it finds nothing when no entry brings the remainder to
    zero or below. *)
Lemma find_motion_passes (es : list (string * float)) :
  forall random w,
    (forall pre e post,
        es = pre ++ e :: post ->
        (remainder random (pre ++ [e]) <=? 0) = false) ->
    find_motion random es w = (None, w).
Proof.
  induction es as [|[k wt] es IH]; intros random w Hall; simpl.
  - reflexivity.
  - assert (E : (random - wt <=? 0) = false)
      by (apply (Hall [] (k, wt) es); reflexivity).
    rewrite E. apply IH. intros pre e post ->.
    apply (Hall ((k, wt) :: pre) e post). reflexivity.
Qed.

Lemma pickWeighted_unfold (u : float) (group : MotionWeightMap) :
  group <> [] ->
  pickWeighted u group =
  hd_error
    (motions
       (snd (find_motion (u * totalWeight group) (entries group)
               (mkWorld (rand (fresh [u])) 1 [])))).
Proof.
  intros Hne. unfold pickWeighted, played, playRandomMotion.
  assert (Hlen : (List.length (keys group) =? 0)%nat = false)
    by (destruct group; [congruence | reflexivity]).
  rewrite Hlen. unfold bind, Math_random.
  change (rand (fresh [u]) (drawn (fresh [u]))) with u.
  change (drawn (fresh [u])) with 0%nat.
  change (motions (fresh [u])) with (@nil string).
  destruct (find_motion _ _ _) as [r w']. reflexivity.
Qed.

(** C1 (as the code has it).  With [Math.random()] returning [u] and [W]
    the total weight as the reduction sums it: the empty map selects
    nothing; a motion that is selected is a key of the map, at the first
    entry, in iteration order, at which the remainder of the draw [u * W],
    decreased by the weights in turn, is zero or below; and nothing is
    selected exactly when no entry brings the remainder to zero or
    below. *)
Theorem pickWeighted_selects (group : MotionWeightMap) (u : float) :
  (group = [] -> pickWeighted u group = None) /\
  (forall motion,
      pickWeighted u group = Some motion ->
      exists pre weight post,
        entries group = pre ++ (motion, weight) :: post /\
        In motion (keys group) /\
        (forall pre1 e pre2,
            pre = pre1 ++ e :: pre2 ->
            (remainder (u * totalWeight group) (pre1 ++ [e]) <=? 0) = false) /\
        (remainder (u * totalWeight group) (pre ++ [(motion, weight)]) <=? 0)
        = true) /\
  (pickWeighted u group = None <->
   forall pre e post,
     entries group = pre ++ e :: post ->
     (remainder (u * totalWeight group) (pre ++ [e]) <=? 0) = false).
Proof.
  destruct group as [|e0 g].
  - split; [reflexivity|]. split; [discriminate|].
    split; [|reflexivity]. intros _ [|? ?] ? ? Hp; discriminate.
  - set (group := e0 :: g).
    assert (Hne : group <> []) by discriminate.
    rewrite (pickWeighted_unfold u group Hne).
    destruct (find_motion (u * totalWeight group) (entries group)
                (mkWorld (rand (fresh [u])) 1 [])) as [[[k wt]|] w'] eqn:E.
    + apply find_motion_Some in E as (pre & post & Hes & -> & Hpre & Hle).
      cbn [snd motions app hd_error].
      split; [discriminate|]. split.
      * intros motion Hm. injection Hm as <-.
        exists pre, wt, post. repeat split; auto.
        unfold keys. unfold entries in Hes. rewrite Hes, map_app.
        apply in_or_app. right. now left.
      * split; [discriminate|]. intros Hall.
        rewrite (Hall pre (k, wt) post Hes) in Hle. discriminate.
    + apply find_motion_None in E as [-> Hpos]. cbn [snd motions hd_error].
      split; [discriminate|]. split; [discriminate|].
      split; [intros _; exact Hpos | reflexivity].
Qed.

Lemma pickWeighted_selects_witness :
  exists pre weight post,
    entries [("idle"%string, 1); ("wave"%string, 3)]
    = pre ++ ("wave"%string, weight) :: post /\
    In "wave"%string (keys [("idle"%string, 1); ("wave"%string, 3)]) /\
    (remainder (0.5 * totalWeight [("idle"%string, 1); ("wave"%string, 3)])
       (pre ++ [("wave"%string, weight)]) <=? 0) = true.
Proof.
  destruct (pickWeighted_selects
              [("idle"%string, 1); ("wave"%string, 3)] 0.5)
    as (_ & H & _).
  destruct (H "wave"%string eq_refl) as (pre & weight & post & H1 & H2 & _ & H3).
  exists pre, weight, post. auto.
Defined.

(** C1 as stated fails, both ways.  The map [{idle: 0}] has total weight
    [0] and is not empty: it selects [idle].  The map
    [{a: 0.2, b: 0.2, c: 0.2, d: 0.6}] has a total weight above [0], yet with
    [Math.random()] returning [1 - 2^-52] the remainder after the last
    entry is still above [0], and no motion is selected. *)
Lemma pickWeighted_zero_total_selects :
  totalWeight [("idle"%string, 0)] = 0 /\
  pickWeighted 0 [("idle"%string, 0)] = Some "idle"%string /\
  (0 <? totalWeight [("a"%string, 0.2); ("b"%string, 0.2);
                     ("c"%string, 0.2); ("d"%string, 0.6)]) = true /\
  (0 <=? 0x1.ffffffffffffep-1) = true /\
  (0x1.ffffffffffffep-1 <? 1) = true /\
  pickWeighted 0x1.ffffffffffffep-1
    [("a"%string, 0.2); ("b"%string, 0.2);
     ("c"%string, 0.2); ("d"%string, 0.6)] = None /\
  ~ (forall (group : MotionWeightMap) (u : float),
        (0 <=? u) = true -> (u <? 1) = true ->
        totalWeight group = 0 -> pickWeighted u group = None) /\
  ~ (forall (group : MotionWeightMap) (u : float),
        (0 <=? u) = true -> (u <? 1) = true ->
        (0 <? totalWeight group) = true ->
        exists motion, pickWeighted u group = Some motion).
Proof.
  repeat (split; [reflexivity|]). split.
  - intros H. specialize (H [("idle"%string, 0)] 0 eq_refl eq_refl eq_refl).
    discriminate H.
  - intros H.
    destruct (H [("a"%string, 0.2); ("b"%string, 0.2);
                 ("c"%string, 0.2); ("d"%string, 0.6)]
                0x1.ffffffffffffep-1 eq_refl eq_refl eq_refl) as [m Hm].
    discriminate Hm.
Qed.

End WeightedSelection.

(* ------------------------------------------------------------------------- *)
(** ** The merged fallback group *)

Section MergedGroup.
Import Motion MotionSpec.
Local Open Scope float_scope.

Lemma set_new {V : Type} (o : obj V) k v :
  get o k = None -> set o k v = o ++ [(k, v)].
Proof.
  induction o as [|[k' v'] rest IH]; simpl; auto.
  destruct (String.eqb k' k); [discriminate|].
  intros H. now rewrite (IH H).
Qed.

(** The own entry of [m] after one step: an entry is added to or created
    for the motion of the step, unless it has none and its name is
    inherited. *)
Lemma tally_step_get (acc : obj Tally) k w m :
  get (tally_step acc (k, w)) m =
  if String.eqb k m
  then match get acc k with
       | Some t => tallyAfter (Some t) [w]
       | None => if inherited k then None else tallyAfter None [w]
       end
  else get acc m.
Proof.
  unfold tally_step, tallyAfter. simpl fold_left.
  destruct (get acc k) as [t|] eqn:Hk.
  - rewrite Hk. destruct (String.eqb_spec k m) as [<-|Hne].
    + apply get_set_same.
    + now apply get_set_other.
  - destruct (inherited k).
    + rewrite Hk. destruct (String.eqb_spec k m) as [<-|Hne]; auto.
    + rewrite get_set_same. cbn [total count].
      destruct (String.eqb_spec k m) as [<-|Hne].
      * apply get_set_same.
      * now rewrite !get_set_other.
Qed.

Lemma tallyAfter_app init ws1 ws2 :
  tallyAfter init (ws1 ++ ws2) = tallyAfter (tallyAfter init ws1) ws2.
Proof. unfold tallyAfter. apply fold_left_app. Qed.


Lemma tally_fold_get (es : list (string * float)) :
  forall (acc : obj Tally) m,
    get (fold_left tally_step es acc) m
    = match get acc m with
      | Some t => tallyAfter (Some t) (weightsFor m es)
      | None =>
          if inherited m then None else tallyAfter None (weightsFor m es)
      end.
Proof.
  induction es as [|[k w] es IH]; intros acc m; cbn [fold_left].
  - destruct (get acc m); [|destruct (inherited m)]; reflexivity.
  - rewrite IH, tally_step_get. unfold weightsFor. simpl filter.
    destruct (String.eqb_spec k m) as [<-|Hne]; [|reflexivity].
    simpl map.
    destruct (get acc k) as [t|]; [reflexivity|].
    destruct (inherited k); reflexivity.
Qed.

Lemma tally_step_wf (acc : obj Tally) e : wf acc -> wf (tally_step acc e).
Proof.
  destruct e as [k w]. unfold tally_step. intros Hwf.
  destruct (get acc k) eqn:Hk.
  - rewrite Hk. now apply wf_set.
  - destruct (inherited k).
    + now rewrite Hk.
    + rewrite get_set_same. now apply wf_set, wf_set.
Qed.

Lemma tally_fold_wf (es : list (string * float)) :
  forall acc : obj Tally, wf acc -> wf (fold_left tally_step es acc).
Proof.
  induction es as [|e es IH]; intros acc Hwf; simpl; auto.
  apply IH, tally_step_wf, Hwf.
Qed.




Lemma mean_fold (l : obj Tally) :
  forall acc : MotionWeightMap,
    NoDup (keys acc ++ keys l) ->
    fold_left mean_step l acc = acc ++ map meanEntry l.
Proof.
  induction l as [|[k t] l IH]; intros acc Hnd; simpl.
  - now rewrite app_nil_r.
  - assert (Hk : get acc k = None).
    { apply get_None_notin. intros Hin.
      apply NoDup_remove_2 in Hnd. apply Hnd, in_or_app. now left. }
    rewrite (set_new acc k _ Hk), IH.
    + now rewrite <- app_assoc.
    + unfold keys in *. rewrite map_app, <- app_assoc. exact Hnd.
Qed.

Lemma keys_meanEntry (l : obj Tally) : keys (map meanEntry l) = keys l.
Proof. unfold keys. rewrite map_map. reflexivity. Qed.


Lemma getMergedMotionGroup_unfold (tapMotions : TapMotionMap) :
  getMergedMotionGroup tapMotions =
  map meanEntry
    (fold_left tally_step (flat_map (fun g => entries g) (values tapMotions)) []).
Proof.
  unfold getMergedMotionGroup, entries. rewrite mean_fold; [reflexivity|].
  simpl. apply (tally_fold_wf _ []). constructor.
Qed.










(** C2 as stated fails: on the sample map [nod] does not get the weight
    [1/2], the mean over both groups; it gets [1]. *)
Lemma merged_sample_not_half :
  ~ sameWeights
      (getMergedMotionGroup
         [("head"%string, [("wave"%string, 1); ("nod"%string, 1)]);
          ("body"%string, [("wave"%string, 3)])])
      [("wave"%string, 2); ("nod"%string, 0.5)].
Proof.
  intros H. specialize (H "nod"%string). vm_compute in H. discriminate H.
Qed.

(** C2 (as the code has it).  On the sample map the merged group is
    [{wave: 2, nod: 1}]: [wave] is averaged over the two groups that hold
    it, [nod] over the one group that holds it. *)
Theorem merged_sample :
  keys (getMergedMotionGroup
          [("head"%string, [("wave"%string, 1); ("nod"%string, 1)]);
           ("body"%string, [("wave"%string, 3)])])
  = ["wave"%string; "nod"%string] /\
  sameWeights
    (getMergedMotionGroup
       [("head"%string, [("wave"%string, 1); ("nod"%string, 1)]);
        ("body"%string, [("wave"%string, 3)])])
    [("wave"%string, 2); ("nod"%string, 1)] /\
  meanWeight "nod"
    [("head"%string, [("wave"%string, 1); ("nod"%string, 1)]);
     ("body"%string, [("wave"%string, 3)])] = 1 /\
  meanOverAll "nod"
    [("head"%string, [("wave"%string, 1); ("nod"%string, 1)]);
     ("body"%string, [("wave"%string, 3)])] = 0.5.
Proof.
  split; [reflexivity|]. split; [|split; reflexivity].
  intros motion.
  change (getMergedMotionGroup _)
    with [("wave"%string, 2); ("nod"%string, 1)].
  unfold sameEntry. cbn [get].
  destruct (String.eqb "wave" motion); [reflexivity|].
  destruct (String.eqb "nod" motion); [reflexivity | exact I].
Qed.

End MergedGroup.

(* ------------------------------------------------------------------------- *)
(** ** Tap resolution *)

Section TapResolution.
Import Motion MotionSpec TapSpec.
Local Open Scope float_scope.

Lemma playRandomMotion_unit (group : option MotionWeightMap) (w : World) :
  playRandomMotion group w = (tt, snd (playRandomMotion group w)).
Proof. destruct (playRandomMotion group w) as [[] w']. reflexivity. Qed.

Lemma find_area_firstFound (tapMotions : TapMotionMap) hitAreas w :
  find_area tapMotions hitAreas w =
  match firstFound tapMotions hitAreas with
  | Some (area, group) =>
      (Some area, snd (playRandomMotion (Some group) w))
  | None => (None, w)
  end.
Proof.
  induction hitAreas as [|area rest IH]; cbn [find_area firstFound];
    [reflexivity|].
  destruct (get tapMotions area) as [group|].
  - unfold bind. rewrite playRandomMotion_unit. reflexivity.
  - destruct (inherited area); [|exact IH].
    unfold bind. rewrite playRandomMotion_unit. reflexivity.
Qed.

Lemma firstConfigured_nonempty (tapMotions : TapMotionMap) hitAreas area group :
  firstConfigured tapMotions hitAreas = Some (area, group) ->
  get tapMotions area = Some group /\
  In area hitAreas /\
  (0 <? List.length (keys tapMotions))%nat = true.
Proof.
  induction hitAreas as [|a rest IH]; simpl; [discriminate|].
  destruct (get tapMotions a) as [g|] eqn:E.
  - intros H. injection H as <- <-. repeat split; auto.
    destruct tapMotions; [discriminate | reflexivity].
  - intros H. destruct (IH H) as (H1 & H2 & H3). auto.
Qed.

(** What the property read found: the group of the area, or the inherited
    member for an area whose name is inherited. *)
Lemma firstFound_cases (tapMotions : TapMotionMap) hitAreas area group :
  firstFound tapMotions hitAreas = Some (area, group) ->
  get tapMotions area = Some group \/
  (inherited area = true /\ group = prototype_member).
Proof.
  induction hitAreas as [|a rest IH]; simpl; [discriminate|].
  destruct (get tapMotions a) as [g|] eqn:E.
  - intros H. injection H as <- <-. now left.
  - destruct (inherited a) eqn:Hi; [|exact IH].
    intros H. injection H as <- <-. now right.
Qed.

(** Where no hit area bears an inherited name, the first area found is
    the first area configured. *)
Lemma firstFound_firstConfigured (tapMotions : TapMotionMap) hitAreas :
  existsb inherited hitAreas = false ->
  firstFound tapMotions hitAreas = firstConfigured tapMotions hitAreas.
Proof.
  induction hitAreas as [|a rest IH]; cbn [existsb firstFound firstConfigured];
    [reflexivity|].
  intros H. apply orb_false_iff in H as [Ha Hrest].
  rewrite Ha. destruct (get tapMotions a); auto.
Qed.

(** An area with the empty name that is found is configured, and it is
    the first configured one. *)
Lemma firstFound_empty_name (tapMotions : TapMotionMap) hitAreas group :
  firstFound tapMotions hitAreas = Some (EmptyString, group) ->
  firstConfigured tapMotions hitAreas = Some (EmptyString, group).
Proof.
  induction hitAreas as [|a rest IH]; cbn [firstFound firstConfigured];
    [discriminate|].
  destruct (get tapMotions a) as [g|]; [auto|].
  destruct (String.eqb_spec a EmptyString) as [->|Hne].
  - exact IH.
  - destruct (inherited a); [|exact IH].
    intros H. injection H as -> _. congruence.
Qed.

(** What [handleTapMotion] does, by cases on the first area found. *)
Lemma handleTapMotion_cases (tapMotions : TapMotionMap) hitAreas w :
  handleTapMotion (Some tapMotions) hitAreas w =
  match firstFound tapMotions hitAreas with
  | Some (area, group) =>
      if String.eqb area EmptyString
         && (0 <? List.length (keys tapMotions))%nat
      then playRandomMotion (Some (getMergedMotionGroup tapMotions))
             (snd (playRandomMotion (Some group) w))
      else playRandomMotion (Some group) w
  | None =>
      match tapMotions with
      | [] => (tt, w)
      | _ :: _ => playRandomMotion (Some (getMergedMotionGroup tapMotions)) w
      end
  end.
Proof.
  unfold handleTapMotion, bind. rewrite find_area_firstFound.
  destruct (firstFound tapMotions hitAreas) as [[area group]|] eqn:E.
  - unfold falsy.
    destruct (String.eqb area EmptyString
              && (0 <? List.length (keys tapMotions))%nat); [reflexivity|].
    unfold ret. now rewrite <- playRandomMotion_unit.
  - unfold falsy. destruct tapMotions; reflexivity.
Qed.

(** Away from the empty area name and from the inherited names the
    handler is [resolveTapMotion]: it selects within the group of the
    first configured area and ignores the later ones, falls back to the
    merged group when no area is configured, and selects nothing when the
    tap-motion map is empty. *)
Lemma handleTapMotion_resolves (tapMotions : TapMotionMap) hitAreas w :
  existsb inherited hitAreas = false ->
  (forall group,
      firstConfigured tapMotions hitAreas <> Some (EmptyString, group)) ->
  handleTapMotion (Some tapMotions) hitAreas w
  = resolveTapMotion tapMotions hitAreas w.
Proof.
  intros Hinh Hne. rewrite handleTapMotion_cases. unfold resolveTapMotion.
  rewrite (firstFound_firstConfigured _ _ Hinh).
  destruct (firstConfigured tapMotions hitAreas) as [[area group]|];
    [|destruct tapMotions; reflexivity].
  destruct (String.eqb_spec area EmptyString) as [->|_]; [|reflexivity].
  now elim (Hne group).
Qed.

(** Without a tap-motion map nothing is selected. *)
Lemma handleTapMotion_unconfigured hitAreas w :
  handleTapMotion None hitAreas w = (tt, w).
Proof. reflexivity. Qed.

(** The example of the specification: with [head] alone configured and
    the areas [body, head] hit, the selection is made in [head]'s group. *)
Lemma handleTapMotion_body_head :
  played (handleTapMotion (Some [("head"%string, [("waveA"%string, 1)])])
            ["body"%string; "head"%string]) [0.5]
  = ["waveA"%string].
Proof. reflexivity. Qed.

(** A hit area that has no group but bears an inherited name stops the
    search: neither the configured area after it nor the merged group is
    selected from. *)
Lemma handleTapMotion_inherited_area :
  played (handleTapMotion (Some [("head"%string, [("waveA"%string, 1)])])
            ["constructor"%string; "head"%string]) [0.5]
  = [].
Proof. reflexivity. Qed.

(** C5 fails on an area whose name is the empty string.  The area has a
    group, [{wave: 1}], and the handler selects within it; but the name
    that [find] returns is falsy, so the handler goes on to select within
    the merged group as well: two motions are started, and the second,
    [nod], is not a motion of the area's group.  [resolveTapMotion] starts
    [wave] alone. *)
Theorem handleTapMotion_empty_area_name :
  firstConfigured
    [(EmptyString, [("wave"%string, 1)]); ("body"%string, [("nod"%string, 1)])]
    [EmptyString]
  = Some (EmptyString, [("wave"%string, 1)]) /\
  played (resolveTapMotion
            [(EmptyString, [("wave"%string, 1)]);
             ("body"%string, [("nod"%string, 1)])]
            [EmptyString]) [0; 0.9]
  = ["wave"%string] /\
  played (handleTapMotion
            (Some [(EmptyString, [("wave"%string, 1)]);
                   ("body"%string, [("nod"%string, 1)])])
            [EmptyString]) [0; 0.9]
  = ["wave"%string; "nod"%string].
Proof. repeat split. Qed.

End TapResolution.

(* ------------------------------------------------------------------------- *)
(** ** The drag state machine *)

Section DragGesture.
Import Drag DragSpec.
Local Open Scope float_scope.

Lemma last_cons {A : Type} (l : list A) :
  forall a d, last (a :: l) d = last l a.
Proof.
  induction l as [|b l IH]; intros a d; [reflexivity|].
  change (last (a :: b :: l) d) with (last (b :: l) d).
  now rewrite !IH.
Qed.

Lemma placed_same (s s' : State) (p : float * float) :
  pointerX s' = pointerX s -> pointerY s' = pointerY s ->
  placed s' p = placed s p.
Proof. unfold placed. now intros -> ->. Qed.

(** One move during a drag: the offset stays, the model goes where the
    pointer puts it, and [isTap] is cleared when the test of that position
    against the one the model was at succeeds. *)
Lemma step_move (Math_hypot : float -> float -> float)
  (s : State) (p : float * float) :
  dragging s = true ->
  step Math_hypot s (pointermove (fst p) (snd p)) =
  (mkState true (pointerX s) (pointerY s)
     (isTap s && negb (far Math_hypot (position s) (placed s p)))
     (fst (placed s p)) (snd (placed s p)), []).
Proof.
  intros Hd. unfold step. rewrite Hd. unfold far, placed, position.
  cbn [fst snd]. destruct (dragThreshold <? _); cbn [negb];
    [now rewrite andb_false_r | now rewrite andb_true_r].
Qed.

Lemma run_moves (Math_hypot : float -> float -> float)
  (ps : list (float * float)) :
  forall s,
    dragging s = true ->
    snd (run Math_hypot s (moves ps)) = [] /\
    dragging (fst (run Math_hypot s (moves ps))) = true /\
    pointerX (fst (run Math_hypot s (moves ps))) = pointerX s /\
    pointerY (fst (run Math_hypot s (moves ps))) = pointerY s /\
    isTap (fst (run Math_hypot s (moves ps)))
    = isTap s && negb (jumped Math_hypot (position s) (map (placed s) ps)) /\
    position (fst (run Math_hypot s (moves ps)))
    = last (map (placed s) ps) (position s).
Proof.
  induction ps as [|p ps IH]; intros s Hd.
  - simpl. rewrite andb_true_r. repeat split; auto.
  - cbn [moves map run]. rewrite (step_move Math_hypot s p Hd).
    set (s1 := mkState true _ _ _ _ _).
    specialize (IH s1 eq_refl).
    fold (moves ps).
    destruct (run Math_hypot s1 (moves ps)) as [s2 taps2].
    cbn [fst snd] in IH |- *.
    destruct IH as (Ht & Hd2 & Hx & Hy & Htap & Hpos).
    assert (Hmap : map (placed s1) ps = map (placed s) ps).
    { apply map_ext. intros q. now apply placed_same. }
    rewrite Hmap in Htap, Hpos.
    repeat split; auto.
    + rewrite Htap. cbn [jumped isTap s1].
      change (position s1) with (placed s p).
      rewrite negb_orb, andb_assoc. reflexivity.
    + rewrite Hpos.
      change (position s1) with (placed s p).
      cbn [map]. now rewrite last_cons.
Qed.

(** C3 (as the code has it).  Whatever the engine computes for
    [Math.hypot]: after a primary-button [pointerdown] and any sequence of
    moves, [isTap] is still set exactly when at no single move
    [Math.hypot] of the differences between the position the move puts
    the model at and the position the event before it (the press, for the
    first) had left it at exceeded the threshold; the model ends where the
    last move put it; and [pointerup] then ends the drag and calls the tap
    handler exactly when [isTap] is still set. *)
Theorem isTap_cleared_by_one_move
  (Math_hypot : float -> float -> float)
  (s0 : State) (gx gy : float) (ps : list (float * float)) (ux uy : float) :
  let s1 := fst (step Math_hypot s0 (pointerdown 0 gx gy)) in
  let s2 := fst (run Math_hypot s1 (moves ps)) in
  position s1 = position s0 /\
  isTap s2 = negb (jumped Math_hypot (position s0) (map (placed s1) ps)) /\
  position s2 = last (map (placed s1) ps) (position s0) /\
  dragging (fst (step Math_hypot s2 (pointerup ux uy))) = false /\
  snd (step Math_hypot s2 (pointerup ux uy))
  = (if isTap s2 then [(ux, uy)] else []).
Proof.
  intros s1 s2.
  assert (Hd : dragging s1 = true) by reflexivity.
  destruct (run_moves Math_hypot ps s1 Hd) as (_ & Hd2 & _ & _ & Htap & Hpos).
  fold s2 in Hd2, Htap, Hpos.
  split; [reflexivity|]. split; [exact Htap|]. split; [exact Hpos|].
  unfold step. rewrite Hd2. split; reflexivity.
Qed.

(** Press at [(100, 100)] on a model at the origin and move in two steps
    of four pixels.  On every engine for which [Math.hypot(4, 0)] does not
    exceed [5], [isTap] is still set after the moves and [pointerup] calls
    the tap handler, although the model has gone from 0 to 8 on the x
    axis. *)
Lemma two_small_moves (Math_hypot : float -> float -> float) :
  (dragThreshold <? Math_hypot 4 0) = false ->
  isTap (fst (run Math_hypot (initial 0 0)
                [pointerdown 0 100 100; pointermove 104 100;
                 pointermove 108 100])) = true /\
  position (fst (run Math_hypot (initial 0 0)
                   [pointerdown 0 100 100; pointermove 104 100;
                    pointermove 108 100])) = (8, 0) /\
  snd (run Math_hypot (initial 0 0)
         [pointerdown 0 100 100; pointermove 104 100; pointermove 108 100;
          pointerup 108 100]) = [(108, 100)].
Proof.
  intros H.
  assert (H1 : (dragThreshold <? Math_hypot (104 - (100 - 0) - 0)
                                    (100 - (100 - 0) - 0)) = false)
    by exact H.
  assert (H2 : (dragThreshold <? Math_hypot (108 - (100 - 0) - (104 - (100 - 0)))
                                    (100 - (100 - 0) - (100 - (100 - 0))))
               = false) by exact H.
  cbn [run step initial dragging pointerX pointerY isTap model_x model_y
       Z.eqb fst snd app position].
  rewrite H1. cbn [dragging pointerX pointerY isTap model_x model_y].
  rewrite H2. repeat split.
Qed.

(** C3 as stated fails.  With the square root of the sum of the squares
    for [Math.hypot], press at [(100, 100)] on a model at the origin and
    move in two steps of four pixels: the model ends eight pixels from
    where the drag started, beyond the threshold, yet [isTap] is still set
    and [pointerup] calls the tap handler. *)
Lemma small_moves_keep_isTap :
  strayed hypot_sqrt
    (position (fst (step hypot_sqrt (initial 0 0) (pointerdown 0 100 100))))
    (map (placed (fst (step hypot_sqrt (initial 0 0) (pointerdown 0 100 100))))
       [(104, 100); (108, 100)]) = true /\
  isTap (fst (run hypot_sqrt (initial 0 0)
                [pointerdown 0 100 100; pointermove 104 100;
                 pointermove 108 100])) = true /\
  snd (run hypot_sqrt (initial 0 0)
         [pointerdown 0 100 100; pointermove 104 100; pointermove 108 100;
          pointerup 108 100]) = [(108, 100)] /\
  ~ (forall (s0 : State) (gx gy : float) (ps : list (float * float)),
        isTap (fst (run hypot_sqrt
                      (fst (step hypot_sqrt s0 (pointerdown 0 gx gy)))
                      (moves ps)))
        = negb (strayed hypot_sqrt (position s0)
                  (map (placed (fst (step hypot_sqrt s0 (pointerdown 0 gx gy))))
                     ps))).
Proof.
  split; [reflexivity|]. split; [reflexivity|]. split; [reflexivity|].
  intros H.
  specialize (H (initial 0 0) 100 100 [(104, 100); (108, 100)]).
  vm_compute in H. discriminate H.
Qed.

(** The two gestures of the specification. *)
Lemma short_drag_taps :
  snd (run hypot_sqrt (initial 0 0)
         [pointerdown 0 100 100; pointermove 103 101; pointerup 103 101])
  = [(103, 101)].
Proof. reflexivity. Qed.

Lemma long_drag_does_not_tap :
  snd (run hypot_sqrt (initial 0 0)
         [pointerdown 0 100 100; pointermove 200 100; pointerup 200 100])
  = [].
Proof. reflexivity. Qed.

(** The threshold is tested on what [Math.hypot] returns, not on the
    distance: a move by [(5, 2^-30)] is longer than five pixels, but the
    square root of the rounded sum of squares is [5], and the tap fires. *)
Lemma rounded_hypot_keeps_isTap :
  hypot_sqrt 5 0x1p-30 = 5 /\
  snd (run hypot_sqrt (initial 0 0)
         [pointerdown 0 0 0; pointermove 5 0x1p-30; pointerup 5 0x1p-30])
  = [(5, 0x1p-30)].
Proof. split; reflexivity. Qed.

End DragGesture.


(* ------------------------------------------------------------------------- *)
(** ** Speech tasks *)

Section SpeechTasks.
Import Js AudioTask AudioSpec.
Local Open Scope string_scope.
Local Open Scope list_scope.

(** Runs a statement on a state given by its fields. *)
Ltac run_exec :=
  cbv [try_catch checkFinished callback bind emit resolve throw ret when
       set_isFinished set_listening set_polling
       trace promise isFinished listening polling].

Lemma displayTrace_cases (options : AudioTaskOptions) :
  displayTrace options =
  match displayText options with
  | Some dt =>
      [appendResponse (text dt);
       appendAIMessage (text dt) (name dt) (avatar dt)]
      ++ (if nonempty (audioBase64 options)
          then [setSubtitleText (text dt)] else [])
      ++ (if isTrue (forwarded options)
          then [] else [sendMessage (audio_play_start dt true)])
  | None => []
  end.
Proof.
  unfold displayTrace, updateDisplayText.
  destruct (displayText options) as [dt|]; [|reflexivity].
  destruct (nonempty (audioBase64 options)), (isTrue (forwarded options));
    reflexivity.
Qed.

(** The display block only extends the trace, and does not throw. *)
Lemma updateDisplayText_run (options : AudioTaskOptions) (r : Run) :
  updateDisplayText options r =
  (Ok tt,
   mkRun (trace r ++ displayTrace options) (promise r) (isFinished r)
     (listening r) (polling r)).
Proof.
  rewrite displayTrace_cases. unfold updateDisplayText.
  destruct r as [t p f l q]. cbn [trace promise isFinished listening polling].
  destruct (displayText options) as [dt|];
    [|unfold ret; now rewrite app_nil_r].
  destruct (nonempty (audioBase64 options)), (isTrue (forwarded options));
    run_exec; cbn [negb]; rewrite <- ?app_assoc; reflexivity.
Qed.

Lemma noDisplayEffect_displayTrace_filter (options : AudioTaskOptions) rest :
  noDisplayEffect rest = true ->
  filter isDisplayEffect (displayTrace options ++ rest) = displayTrace options.
Proof.
  intros Hrest. rewrite filter_app.
  assert (H1 : filter isDisplayEffect rest = []).
  { unfold noDisplayEffect in Hrest. induction rest as [|e rest IH];
      [reflexivity|]. simpl in Hrest |- *.
    apply andb_true_iff in Hrest as [He Hr].
    apply negb_true_iff in He. rewrite He. auto. }
  rewrite H1, app_nil_r, displayTrace_cases.
  destruct (displayText options) as [dt|]; [|reflexivity].
  destruct (nonempty (audioBase64 options)), (isTrue (forwarded options));
    reflexivity.
Qed.

(** With a model handle and outside the interrupted state, the executor
    runs the [try] statement after the display block. *)
Lemma executor_unfold aiState (model : Model) (options : AudioTaskOptions) :
  String.eqb aiState "interrupted" = false ->
  executor aiState (Some model) options start
  = try_catch (setupPlayback model options) reportSetupError
      (mkRun (displayTrace options) Pending false false false).
Proof.
  intros Hs. unfold executor. rewrite Hs. unfold bind at 1.
  now rewrite updateDisplayText_run.
Qed.

(** With a model handle and outside the interrupted state, the executor
    returns normally; after the display block it touches neither the chat
    history, the subtitle nor the web socket; and it leaves the promise
    pending or fulfilled. *)
Lemma executor_with_model aiState (model : Model) (options : AudioTaskOptions) :
  String.eqb aiState "interrupted" = false ->
  exists rest p f l q,
    executor aiState (Some model) options start
    = (Ok tt, mkRun (displayTrace options ++ rest) p f l q) /\
    noDisplayEffect rest = true /\
    p <> Rejected.
Proof.
  intros Hs. rewrite (executor_unfold _ _ _ Hs).
  generalize (displayTrace options) as t. intros t.
  unfold setupPlayback, reportSetupError.
  destruct (firstExpression options) as [e|];
    [destruct (expression model e) as [err|] eqn:He|];
    destruct (nonempty (audioBase64 options));
    try (destruct (speak model
                     ("data:audio/wav;base64," ++ audioBase64 options)%string)
           as [err'|[[|err'']|]] eqn:Hsp);
    unfold call_expression, call_speak; rewrite ?He, ?Hsp; run_exec;
    rewrite <- ?app_assoc;
    do 5 eexists; (split; [reflexivity|]); split;
    try reflexivity; discriminate.
Qed.

(** The executor always returns normally and never rejects the promise. *)
Lemma executor_returns aiState (live2dModel : option Model) options :
  exists r,
    executor aiState live2dModel options start = (Ok tt, r) /\
    promise r <> Rejected.
Proof.
  destruct (String.eqb aiState "interrupted") eqn:Hs.
  - unfold executor. rewrite Hs. eexists. split; [reflexivity|]. discriminate.
  - destruct live2dModel as [model|].
    + destruct (executor_with_model aiState model options Hs)
        as (rest & p & f & l & q & -> & _ & Hp).
      eexists. split; [reflexivity | exact Hp].
    + unfold executor. rewrite Hs. unfold bind at 1.
      rewrite updateDisplayText_run.
      eexists. split; [reflexivity|]. discriminate.
Qed.

Lemma handleAudioPlayback_not_rejected aiState live2dModel options :
  promise (handleAudioPlayback aiState live2dModel options) <> Rejected.
Proof.
  unfold handleAudioPlayback, new_Promise.
  destruct (executor_returns aiState live2dModel options) as (r & -> & Hp).
  exact Hp.
Qed.

Lemma callback_run (c : Callback) (r : Run) :
  promise r <> Rejected ->
  promise (snd (callback c r)) = Fulfilled /\
  isFinished (snd (callback c r)) = true /\
  listening (snd (callback c r)) = listening r.
Proof.
  intros Hp. destruct r as [t p f l q].
  destruct c, p; cbn in Hp |- *; try congruence; auto.
Qed.

Lemma deliver_not_rejected (r : Run) (ev : Later) :
  promise r <> Rejected -> promise (deliver r ev) <> Rejected.
Proof.
  intros Hp. destruct ev as [c|]; unfold deliver.
  - destruct (listening r); [|exact Hp].
    destruct (callback_run c r Hp) as [-> _]. discriminate.
  - destruct (polling r); [|exact Hp].
    unfold checkFinished. destruct (isFinished r); exact Hp.
Qed.

Lemma deliverAll_not_rejected (evs : list Later) :
  forall r, promise r <> Rejected -> promise (deliverAll r evs) <> Rejected.
Proof.
  unfold deliverAll. induction evs as [|ev evs IH]; intros r Hp; [exact Hp|].
  apply IH, deliver_not_rejected, Hp.
Qed.

(** C6 (as the code has it).  Outside the interrupted state a task with
    a display text first appends it to the chat history, then sets the
    subtitle when the task carries audio, then sends [audio-play-start]
    with the display text exactly when the task is not marked forwarded;
    whatever follows, the call of [model.speak] included, touches neither
    the chat history, the subtitle nor the web socket. *)
Theorem displayText_pushed_before_playback
  aiState (live2dModel : option Model) (options : AudioTaskOptions)
  (dt : DisplayText) :
  String.eqb aiState "interrupted" = false ->
  displayText options = Some dt ->
  exists rest,
    trace (handleAudioPlayback aiState live2dModel options)
    = [appendResponse (text dt);
       appendAIMessage (text dt) (name dt) (avatar dt)]
      ++ (if nonempty (audioBase64 options)
          then [setSubtitleText (text dt)] else [])
      ++ (if isTrue (forwarded options)
          then [] else [sendMessage (audio_play_start dt true)])
      ++ rest /\
    noDisplayEffect rest = true.
Proof.
  intros Hs Hdt.
  assert (Hd : displayTrace options
               = [appendResponse (text dt);
                  appendAIMessage (text dt) (name dt) (avatar dt)]
                 ++ (if nonempty (audioBase64 options)
                     then [setSubtitleText (text dt)] else [])
                 ++ (if isTrue (forwarded options)
                     then [] else [sendMessage (audio_play_start dt true)]))
    by (rewrite displayTrace_cases, Hdt; reflexivity).
  assert (H : exists rest,
             trace (handleAudioPlayback aiState live2dModel options)
             = displayTrace options ++ rest /\ noDisplayEffect rest = true).
  { unfold handleAudioPlayback, new_Promise.
    destruct live2dModel as [model|].
    - destruct (executor_with_model aiState model options Hs)
        as (rest & p & f & l & q & -> & Hrest & _).
      exists rest. split; [reflexivity | exact Hrest].
    - unfold executor. rewrite Hs. unfold bind at 1.
      rewrite updateDisplayText_run.
      eexists. split; [reflexivity | reflexivity]. }
  destruct H as (rest & Htr & Hrest). exists rest. split; [|exact Hrest].
  rewrite Htr, Hd, <- !app_assoc. reflexivity.
Qed.

Lemma displayText_pushed_before_playback_witness :
  exists rest,
    trace (handleAudioPlayback "thinking-speaking" (Some quietModel)
             (sampleOptions "UklGRg==" None))
    = [appendResponse "Hello"; appendAIMessage "Hello" "Avatar" "avatar.png";
       setSubtitleText "Hello";
       sendMessage (audio_play_start sampleText true)] ++ rest /\
    noDisplayEffect rest = true.
Proof.
  exact (displayText_pushed_before_playback "thinking-speaking"
           (Some quietModel) (sampleOptions "UklGRg==" None) sampleText
           eq_refl eq_refl).
Defined.

(** C6 as stated fails: a task with a display text and no audio, run
    outside the interrupted state, appends the text to the chat history
    but does not set the subtitle. *)
Lemma silent_line_skips_subtitle :
  displayText (sampleOptions "" None) = Some sampleText /\
  trace (handleAudioPlayback "thinking-speaking" (Some quietModel)
           (sampleOptions "" None))
  = [appendResponse "Hello"; appendAIMessage "Hello" "Avatar" "avatar.png";
     sendMessage (audio_play_start sampleText true);
     console_log "Setting expression to:";
     model_expression (expressionIndex 3%float); setTimeout 100] /\
  ~ (forall aiState live2dModel options dt,
        String.eqb aiState "interrupted" = false ->
        displayText options = Some dt ->
        In (setSubtitleText (text dt))
          (trace (handleAudioPlayback aiState live2dModel options))).
Proof.
  split; [reflexivity|]. split; [reflexivity|].
  intros H.
  specialize (H "thinking-speaking" (Some quietModel) (sampleOptions "" None)
                sampleText eq_refl eq_refl).
  cbn in H. intuition discriminate.
Qed.

(** C8.  In the interrupted state [addAudioTask] leaves the queue as it
    is, and a task that starts resolves at once having done nothing but
    log a warning: the trace holds no effect on the chat history, the
    subtitle, the web socket or the model handle, and nothing is left
    pending that a later event could act on. *)
Theorem interrupted_task_is_dropped
  (Queue : Type) (addTask : AudioTaskOptions -> Queue -> Queue)
  (audioTaskQueue : Queue)
  (live2dModel : option Model) (options : AudioTaskOptions) :
  snd (addAudioTask Queue addTask "interrupted" options audioTaskQueue)
  = audioTaskQueue /\
  handleAudioPlayback "interrupted" live2dModel options
  = mkRun [console_warn "Audio playback blocked by interruption state."]
      Fulfilled false false false /\
  noDisplayEffect
    (trace (handleAudioPlayback "interrupted" live2dModel options)) = true /\
  noModelEffect
    (trace (handleAudioPlayback "interrupted" live2dModel options)) = true /\
  (forall evs,
      deliverAll (handleAudioPlayback "interrupted" live2dModel options) evs
      = handleAudioPlayback "interrupted" live2dModel options).
Proof.
  repeat split.
  intros evs. unfold deliverAll.
  change (handleAudioPlayback "interrupted" live2dModel options)
    with (mkRun [console_warn "Audio playback blocked by interruption state."]
            Fulfilled false false false).
  induction evs as [|[c|] evs IH]; [reflexivity | exact IH | exact IH].
Qed.

(** Outside the interrupted state [addAudioTask] hands the task to the
    queue. *)
Lemma addAudioTask_enqueues
  (Queue : Type) (addTask : AudioTaskOptions -> Queue -> Queue)
  (audioTaskQueue : Queue) aiState (options : AudioTaskOptions) :
  String.eqb aiState "interrupted" = false ->
  snd (addAudioTask Queue addTask aiState options audioTaskQueue)
  = addTask options audioTaskQueue.
Proof. intros H. unfold addAudioTask. now rewrite H. Qed.

(** C10 (as the code has it).  Without a model handle the promise is
    fulfilled when the executor returns and nothing is left pending; no
    call is made on a model handle; the chat history, the subtitle and the
    web socket get what they get when a handle is there; and outside the
    interrupted state the trace is the display block followed by the error
    message about the missing handle, the display block of a task with a
    display text being the two appends to the chat history, the subtitle
    when the task carries audio, and the notification when the task is not
    marked forwarded. *)
Theorem missing_model_resolves aiState (options : AudioTaskOptions) :
  promise (handleAudioPlayback aiState None options) = Fulfilled /\
  (forall evs,
      deliverAll (handleAudioPlayback aiState None options) evs
      = handleAudioPlayback aiState None options) /\
  noModelEffect (trace (handleAudioPlayback aiState None options)) = true /\
  (forall model,
      filter isDisplayEffect (trace (handleAudioPlayback aiState None options))
      = filter isDisplayEffect
          (trace (handleAudioPlayback aiState (Some model) options))) /\
  (String.eqb aiState "interrupted" = false ->
   trace (handleAudioPlayback aiState None options)
   = displayTrace options
     ++ [console_error "PIXI Live2D model not found on window.live2dModel"]) /\
  (forall dt,
      displayText options = Some dt ->
      displayTrace options
      = [appendResponse (text dt);
         appendAIMessage (text dt) (name dt) (avatar dt)]
        ++ (if nonempty (audioBase64 options)
            then [setSubtitleText (text dt)] else [])
        ++ (if isTrue (forwarded options)
            then [] else [sendMessage (audio_play_start dt true)])).
Proof.
  assert (Hrun : handleAudioPlayback aiState None options
                 = if String.eqb aiState "interrupted"
                   then mkRun
                          [console_warn
                             "Audio playback blocked by interruption state."]
                          Fulfilled false false false
                   else mkRun
                          (displayTrace options
                           ++ [console_error
                                 "PIXI Live2D model not found on window.live2dModel"])
                          Fulfilled false false false).
  { unfold handleAudioPlayback, new_Promise, executor.
    destruct (String.eqb aiState "interrupted"); [reflexivity|].
    unfold bind at 1. rewrite updateDisplayText_run. reflexivity. }
  assert (Hquiet : forall t evs,
             deliverAll (mkRun t Fulfilled false false false) evs
             = mkRun t Fulfilled false false false).
  { intros t evs. unfold deliverAll.
    induction evs as [|[c|] evs IH]; [reflexivity | exact IH | exact IH]. }
  assert (Hnm : noModelEffect (displayTrace options) = true).
  { rewrite displayTrace_cases.
    destruct (displayText options) as [dt|]; [|reflexivity].
    destruct (nonempty (audioBase64 options)), (isTrue (forwarded options));
      reflexivity. }
  split; [|split; [|split; [|split; [|split]]]].
  - rewrite Hrun. now destruct (String.eqb aiState "interrupted").
  - intros evs. rewrite Hrun.
    destruct (String.eqb aiState "interrupted"); apply Hquiet.
  - rewrite Hrun. destruct (String.eqb aiState "interrupted");
      [reflexivity|]. cbn [trace]. unfold noModelEffect in *.
    rewrite forallb_app, Hnm. reflexivity.
  - intros model. rewrite Hrun.
    destruct (String.eqb aiState "interrupted") eqn:Hs.
    + unfold handleAudioPlayback, new_Promise, executor. rewrite Hs.
      reflexivity.
    + cbn [trace]. unfold handleAudioPlayback, new_Promise.
      destruct (executor_with_model aiState model options Hs)
        as (rest & p & f & l & q & -> & Hrest & _).
      cbn [trace].
      rewrite !noDisplayEffect_displayTrace_filter; auto.
  - intros Hs. rewrite Hrun, Hs. reflexivity.
  - intros dt Hdt. rewrite displayTrace_cases, Hdt. reflexivity.
Qed.

Lemma missing_model_resolves_witness :
  trace (handleAudioPlayback "idle" None (sampleOptions "UklGRg==" None))
  = [appendResponse "Hello"; appendAIMessage "Hello" "Avatar" "avatar.png";
     setSubtitleText "Hello";
     sendMessage (audio_play_start sampleText true);
     console_error "PIXI Live2D model not found on window.live2dModel"].
Proof.
  destruct (missing_model_resolves "idle" (sampleOptions "UklGRg==" None))
    as (_ & _ & _ & _ & H & _).
  exact (H eq_refl).
Defined.

(** C10 as stated fails on the subtitle: a task with a display text and
    no audio, run without a model handle outside the interrupted state,
    appends the text to the chat history and sends the notification, but
    does not set the subtitle. *)
Lemma missing_model_silent_line :
  displayText (sampleOptions "" None) = Some sampleText /\
  handleAudioPlayback "idle" None (sampleOptions "" None)
  = mkRun
      [appendResponse "Hello"; appendAIMessage "Hello" "Avatar" "avatar.png";
       sendMessage (audio_play_start sampleText true);
       console_error "PIXI Live2D model not found on window.live2dModel"]
      Fulfilled false false false /\
  ~ In (setSubtitleText "Hello")
      (trace (handleAudioPlayback "idle" None (sampleOptions "" None))) /\
  ~ (forall aiState options dt,
        String.eqb aiState "interrupted" = false ->
        displayText options = Some dt ->
        In (setSubtitleText (text dt))
          (trace (handleAudioPlayback aiState None options))).
Proof.
  split; [reflexivity|]. split; [reflexivity|]. split.
  - cbn. intuition discriminate.
  - intros H.
    specialize (H "idle" (sampleOptions "" None) sampleText eq_refl eq_refl).
    cbn in H. intuition discriminate.
Qed.

End SpeechTasks.

(* ------------------------------------------------------------------------- *)
(** ** Model loading *)

Section ModelLoading.
Import Js Lifecycle LifecycleSamples.
Local Open Scope string_scope.
Local Open Scope list_scope.

(** A call started while a load is in flight changes nothing. *)
Lemma loadModel_begin_in_flight (modelInfo : option ModelInfo) (h : Hook) :
  loadingRef h = true -> loadModel_begin modelInfo h = (h, None).
Proof.
  intros Hl. unfold loadModel_begin.
  destruct modelInfo as [info|], (stage h); try reflexivity.
  rewrite Hl. now destruct (String.eqb (url info) "").
Qed.

(** A call that reaches the loader marks the load as in flight. *)
Lemma loadModel_begin_request (modelInfo : option ModelInfo) (h h1 : Hook)
  (request : LoadRequest) :
  loadModel_begin modelInfo h = (h1, Some request) ->
  loadingRef h = false /\
  h1 = mkHook (stage h) (modelRef h) true true (isModelReady h)
         (destroyed h) (interactive h) (console h ++ [log "Loading model:"]).
Proof.
  unfold loadModel_begin.
  destruct modelInfo as [info|], (stage h); try discriminate.
  destruct (String.eqb (url info) ""); [discriminate|].
  destruct (loadingRef h); [discriminate|].
  intros H. injection H as <- _. auto.
Qed.

(** When the loader rejects, the rest of the call logs the failure and
    clears the loading flags, and does nothing else. *)
Lemma loadModel_resume_rejected (modelInfo : option ModelInfo) err (h : Hook) :
  loadModel_resume modelInfo (Throw err) h =
  (Ok tt,
   mkHook (stage h) (modelRef h) false false (isModelReady h)
     (destroyed h) (interactive h)
     (console h ++ [error "Failed to load Live2D model:"])).
Proof. reflexivity. Qed.

(** When the loader fulfils, the handle is set up and the flags cleared. *)
Lemma loadModel_resume_fulfilled (modelInfo : option ModelInfo) model (h : Hook) :
  loadModel_resume modelInfo (Ok model) h =
  (Ok tt,
   let h' := snd (setupModel modelInfo model h) in
   mkHook (stage h') (modelRef h') false false (isModelReady h')
     (destroyed h') (interactive h') (console h')).
Proof.
  unfold loadModel_resume, try_finally, try_catch, bind, await, setupModel.
  destruct (stage h), modelInfo; try reflexivity.
  destruct (modelRef h); reflexivity.
Qed.

Lemma loadModel_fulfils (modelInfo : option ModelInfo)
  (loader : LoadRequest -> Result nat) (h : Hook) :
  fst (loadModel modelInfo loader h) = Fulfilled.
Proof.
  unfold loadModel.
  destruct (loadModel_begin modelInfo h) as [h1 [request|]]; [|reflexivity].
  destruct (loader request) as [model|err].
  - now rewrite loadModel_resume_fulfilled.
  - now rewrite loadModel_resume_rejected.
Qed.

(** C9.  The promise of [loadModel] is fulfilled whatever the loader does.
    When the loader rejects, the call logs the failure, clears the
    in-flight flag and the loading indicator, and leaves the stage, the
    current handle and the readiness state as they were.  A call made
    while a load is in flight changes nothing, and a call that reaches
    the loader puts the hook in that state. *)
Theorem loadModel_failure_is_contained (modelInfo : option ModelInfo)
  (loader : LoadRequest -> Result nat) (h : Hook) :
  fst (loadModel modelInfo loader h) = Fulfilled /\
  (forall h1 request err,
      loadModel_begin modelInfo h = (h1, Some request) ->
      loader request = Throw err ->
      snd (loadModel modelInfo loader h)
      = mkHook (stage h) (modelRef h) false false (isModelReady h)
          (destroyed h) (interactive h)
          (console h ++ [log "Loading model:";
                         error "Failed to load Live2D model:"])) /\
  (loadingRef h = true ->
   loadModel_begin modelInfo h = (h, None) /\
   loadModel modelInfo loader h = (Fulfilled, h)) /\
  (forall h1 request,
      loadModel_begin modelInfo h = (h1, Some request) ->
      loadingRef h1 = true /\
      forall modelInfo', loadModel_begin modelInfo' h1 = (h1, None)).
Proof.
  split; [apply loadModel_fulfils|]. split; [|split].
  - intros h1 request err Hb Hl. unfold loadModel. rewrite Hb, Hl.
    rewrite loadModel_resume_rejected.
    apply loadModel_begin_request in Hb as [_ ->]. cbn.
    now rewrite <- app_assoc.
  - intros Hl. pose proof (loadModel_begin_in_flight modelInfo h Hl) as Hb.
    split; [exact Hb|]. unfold loadModel. now rewrite Hb.
  - intros h1 request Hb.
    apply loadModel_begin_request in Hb as [_ ->].
    split; [reflexivity|]. intros modelInfo'.
    now apply loadModel_begin_in_flight.
Qed.

Lemma loadModel_failure_is_contained_witness :
  snd (loadModel (Some sampleInfo) failingLoader showing)
  = mkHook (Some [1%nat]) (Some 1%nat) false false true [] [1%nat]
      [log "Loading model:"; error "Failed to load Live2D model:"].
Proof.
  destruct (loadModel_failure_is_contained (Some sampleInfo) failingLoader
              showing) as (_ & H & _).
  exact (H _ _ "404" eq_refl eq_refl).
Defined.

End ModelLoading.

(* ------------------------------------------------------------------------- *)
(** ** What a tap can start *)

Section TapEffects.
Import Motion MotionSpec TapSpec.
Local Open Scope float_scope.

(** What [find_motion] returns settles what it does to the world. *)
Lemma find_motion_world (random : float) (es : list (string * float))
  (w : World) :
  snd (find_motion random es w) =
  match fst (find_motion random es w) with
  | Some (k, _) => mkWorld (rand w) (drawn w) (motions w ++ [k])
  | None => w
  end.
Proof.
  destruct (find_motion random es w) as [[[k wt]|] w'] eqn:E; cbn [fst snd].
  - apply find_motion_Some in E as (_ & _ & _ & -> & _). reflexivity.
  - now apply find_motion_None in E as [-> _].
Qed.

Lemma find_motion_key (random : float) (es : list (string * float))
  (w : World) k wt :
  fst (find_motion random es w) = Some (k, wt) -> In (k, wt) es.
Proof.
  destruct (find_motion random es w) as [r w'] eqn:E. cbn [fst]. intros ->.
  apply find_motion_Some in E as (pre & post & -> & _).
  apply in_or_app. right. now left.
Qed.

(** On a non-empty group [playRandomMotion] draws once and runs the
    search with the draw scaled by the total weight. *)
Lemma playRandomMotion_nonempty (group : MotionWeightMap) (w : World) :
  group <> [] ->
  playRandomMotion (Some group) w =
  (tt,
   snd (find_motion (rand w (drawn w) * totalWeight group) (entries group)
          (mkWorld (rand w) (S (drawn w)) (motions w)))).
Proof.
  intros Hne. unfold playRandomMotion.
  assert (Hlen : (List.length (keys group) =? 0)%nat = false)
    by (destruct group; [congruence | reflexivity]).
  rewrite Hlen. unfold bind, Math_random.
  destruct (find_motion _ _ _) as [r w']. reflexivity.
Qed.

(** A call of [playRandomMotion] on a group: nothing at all for the empty
    group; otherwise one draw, and at most one motion, a key of the
    group. *)
Lemma playRandomMotion_effect (group : MotionWeightMap) (w : World) :
  exists new,
    snd (playRandomMotion (Some group) w)
    = mkWorld (rand w)
        (match group with [] => drawn w | _ :: _ => S (drawn w) end)
        (motions w ++ new) /\
    (List.length new <= 1)%nat /\
    (forall m, In m new -> In m (keys group)).
Proof.
  destruct group as [|e g].
  - exists []. cbn. rewrite app_nil_r. destruct w.
    split; [reflexivity|]. split; [auto | intros m []].
  - rewrite playRandomMotion_nonempty by discriminate. cbn [snd].
    set (random := rand w (drawn w) * totalWeight (e :: g)).
    set (w1 := mkWorld (rand w) (S (drawn w)) (motions w)).
    rewrite find_motion_world.
    pose proof (find_motion_key random (entries (e :: g)) w1) as Hk.
    destruct (fst (find_motion random (entries (e :: g)) w1)) as [[k wt]|].
    + exists [k]. split; [reflexivity|]. split; [auto|].
      intros m [<-|[]]. unfold keys. apply in_map_iff.
      exists (k, wt). split; [reflexivity | now apply Hk].
    + exists []. unfold w1. rewrite app_nil_r.
      split; [reflexivity|]. split; [auto | intros m []].
Qed.

(** X2.  On a missing group and on the empty group [playRandomMotion]
    leaves the world as it is.  On a non-empty group it consumes one draw
    and starts at most one motion, a key of the group, after those already
    started; it starts none exactly when no entry brings the remainder of
    the scaled draw to zero or below. *)
Theorem playRandomMotion_starts_at_most_one
  (group : MotionWeightMap) (w : World) :
  playRandomMotion None w = (tt, w) /\
  playRandomMotion (Some []) w = (tt, w) /\
  (group <> [] ->
   exists new,
     playRandomMotion (Some group) w
     = (tt, mkWorld (rand w) (S (drawn w)) (motions w ++ new)) /\
     (List.length new <= 1)%nat /\
     (forall motion, In motion new -> In motion (keys group)) /\
     (new = [] <->
      forall pre e post,
        entries group = pre ++ e :: post ->
        (remainder (rand w (drawn w) * totalWeight group) (pre ++ [e]) <=? 0)
        = false)).
Proof.
  split; [reflexivity|]. split; [reflexivity|].
  intros Hne. rewrite (playRandomMotion_nonempty group w Hne).
  set (random := rand w (drawn w) * totalWeight group).
  set (w1 := mkWorld (rand w) (S (drawn w)) (motions w)).
  destruct (find_motion random (entries group) w1) as [[[k wt]|] w'] eqn:E;
    cbn [snd].
  - apply find_motion_Some in E as (pre & post & Hes & -> & _ & Hle).
    exists [k]. split; [reflexivity|]. split; [auto|]. split.
    + intros m [<-|[]]. unfold keys. unfold entries in Hes.
      rewrite Hes, map_app. apply in_or_app. right. now left.
    + split; [discriminate|]. intros Hall.
      rewrite (Hall pre (k, wt) post Hes) in Hle. discriminate.
  - apply find_motion_None in E as [-> Hpos].
    exists []. unfold w1. rewrite app_nil_r.
    split; [reflexivity|]. split; [auto|]. split; [intros m []|].
    split; [intros _; exact Hpos | reflexivity].
Qed.

Lemma playRandomMotion_starts_at_most_one_witness :
  exists new,
    playRandomMotion (Some [("idle"%string, 1); ("wave"%string, 3)])
      (fresh [0.5])
    = (tt, mkWorld (rand (fresh [0.5])) 1 (motions (fresh [0.5]) ++ new)) /\
    (List.length new <= 1)%nat.
Proof.
  destruct (playRandomMotion_starts_at_most_one
              [("idle"%string, 1); ("wave"%string, 3)] (fresh [0.5]))
    as (_ & _ & H).
  destruct H as (new & H1 & H2 & _); [discriminate|].
  exists new. split; [exact H1 | exact H2].
Defined.

Lemma weightsFor_In m (es : list (string * float)) :
  weightsFor m es <> [] -> In m (map fst es).
Proof.
  unfold weightsFor. induction es as [|[k w] es IH]; simpl; [congruence|].
  destruct (String.eqb_spec k m) as [->|Hne]; [now left|].
  intros H. right. auto.
Qed.

(** Every key of the merged group is a motion name of some group. *)
Lemma merged_key_configured (tapMotions : TapMotionMap) m :
  In m (keys (getMergedMotionGroup tapMotions)) ->
  exists g, In g (values tapMotions) /\ In m (keys g).
Proof.
  rewrite getMergedMotionGroup_unfold, keys_meanEntry. intros Hin.
  apply In_get_Some in Hin as [t Ht]. rewrite tally_fold_get in Ht.
  simpl get in Ht.
  assert (Hne : weightsFor m
                  (flat_map (fun g => entries g) (values tapMotions)) <> []).
  { intros Hnil. rewrite Hnil in Ht.
    destruct (inherited m); discriminate. }
  apply weightsFor_In, in_map_iff in Hne as ([k w] & Hk & Hin).
  cbn [fst] in Hk. subst k.
  apply in_flat_map in Hin as (g & Hg & Hin). exists g. split; [exact Hg|].
  unfold keys. apply in_map_iff. now exists (m, w).
Qed.

Lemma get_In_values {V : Type} (o : obj V) k (v : V) :
  get o k = Some v -> In v (values o).
Proof.
  induction o as [|[k' v'] o IH]; simpl; [discriminate|].
  destruct (String.eqb k' k); [intros H; injection H as ->; now left|].
  intros H. right. auto.
Qed.

(** X3.  A tap starts at most two motions, after those already started,
    and each of them is a motion name of one of the configured groups;
    it consumes at most two draws; and when the first configured area has
    a name other than the empty string, or no area is configured, it
    starts at most one. *)
Theorem handleTapMotion_starts_configured
  (tapMotions : TapMotionMap) (hitAreas : list string) (w : World) :
  exists new,
    motions (snd (handleTapMotion (Some tapMotions) hitAreas w))
    = motions w ++ new /\
    (List.length new <= 2)%nat /\
    (forall m, In m new ->
               exists g, In g (values tapMotions) /\ In m (keys g)) /\
    rand (snd (handleTapMotion (Some tapMotions) hitAreas w)) = rand w /\
    (drawn w <= drawn (snd (handleTapMotion (Some tapMotions) hitAreas w))
     <= drawn w + 2)%nat /\
    ((forall group,
         firstConfigured tapMotions hitAreas <> Some (EmptyString, group)) ->
     (List.length new <= 1)%nat).
Proof.
  rewrite handleTapMotion_cases.
  set (merged := getMergedMotionGroup tapMotions).
  assert (Hmerged : forall m, In m (keys merged) ->
                              exists g, In g (values tapMotions) /\ In m (keys g))
    by apply merged_key_configured.
  assert (Hdrawn : forall (g : MotionWeightMap) n,
             (n <= match g with [] => n | _ :: _ => S n end <= n + 1)%nat)
    by (intros [|? ?] n; lia).
  destruct (firstFound tapMotions hitAreas) as [[area group]|] eqn:E.
  - assert (Hgroup : forall m, In m (keys group) ->
                       exists g, In g (values tapMotions) /\ In m (keys g)).
    { intros m Hm. destruct (firstFound_cases _ _ _ _ E) as [Hget|[_ ->]].
      - apply get_In_values in Hget. eauto.
      - destruct Hm. }
    destruct (playRandomMotion_effect group w) as (new1 & Hw1 & Hl1 & Hk1).
    destruct (String.eqb area EmptyString
              && (0 <? List.length (keys tapMotions))%nat) eqn:Hc.
    + apply andb_true_iff in Hc as [Ha _].
      apply String.eqb_eq in Ha. subst area.
      apply firstFound_empty_name in E.
      destruct (playRandomMotion_effect merged
                  (snd (playRandomMotion (Some group) w)))
        as (new2 & Hw2 & Hl2 & Hk2).
      rewrite Hw2, Hw1. cbn [motions rand drawn].
      exists (new1 ++ new2). rewrite app_assoc.
      split; [reflexivity|]. split; [rewrite length_app; lia|].
      split; [|split; [reflexivity|split]].
      * intros m Hin. apply in_app_or in Hin as [Hin|Hin]; eauto.
      * pose proof (Hdrawn group (drawn w)).
        pose proof (Hdrawn merged
                      (match group with
                       | [] => drawn w
                       | _ :: _ => S (drawn w)
                       end)).
        lia.
      * intros Hno. now elim (Hno group).
    + rewrite Hw1. cbn [motions rand drawn]. exists new1.
      split; [reflexivity|]. split; [lia|].
      split; [eauto|]. split; [reflexivity|].
      split; [pose proof (Hdrawn group (drawn w)); lia | auto].
  - destruct tapMotions as [|e tm].
    + exists []. cbn [snd]. rewrite app_nil_r.
      split; [reflexivity|]. split; [simpl; lia|].
      split; [intros m []|]. split; [reflexivity|].
      split; [lia | simpl; lia].
    + destruct (playRandomMotion_effect merged w) as (new & Hw & Hl & Hk).
      rewrite Hw. cbn [motions rand drawn]. exists new.
      split; [reflexivity|]. split; [lia|].
      split; [eauto|]. split; [reflexivity|].
      split; [pose proof (Hdrawn merged (drawn w)); lia | auto].
Qed.

End TapEffects.

(* ------------------------------------------------------------------------- *)
(** ** Gestures: what a drag moves and when a tap can fire *)

Section GestureFacts.
Import Drag DragSpec.
Local Open Scope float_scope.

Lemma last_map_nonempty {A B : Type} (f : A -> B) (l : list A) :
  forall d d', l <> [] -> last (map f l) d = f (last l d').
Proof.
  induction l as [|a l IH]; intros d d' Hne; [congruence|].
  destruct l as [|b l]; [reflexivity|].
  change (last (map f (a :: b :: l)) d) with (last (map f (b :: l)) d).
  change (last (a :: b :: l) d') with (last (b :: l) d').
  apply IH. discriminate.
Qed.

(** X5.  During a drag the model follows the pointer by the offset taken
    at the press: after a press at [(gx, gy)] and moves, the model is at
    the last position of the pointer minus the offset
    [(gx - model.x, gy - model.y)], each subtraction rounded; without a
    move it stays where it was.  The rounding shows: a model at [x = 0.1]
    pressed at [x = 100] and moved to that same point is put at
    [0.09999999999999432]. *)
Theorem drag_follows_pointer (Math_hypot : float -> float -> float)
  (s0 : State) (gx gy : float) (ps : list (float * float)) :
  position (fst (run Math_hypot s0 (pointerdown 0 gx gy :: moves ps)))
  = match ps with
    | [] => position s0
    | _ :: _ =>
        (fst (last ps (gx, gy)) - (gx - model_x s0),
         snd (last ps (gx, gy)) - (gy - model_y s0))
    end /\
  model_x (fst (run Math_hypot (initial 0.1 0)
                  [pointerdown 0 100 0; pointermove 100 0]))
  = 0.09999999999999432.
Proof.
  split; [|reflexivity].
  cbn [run].
  set (s1 := mkState true (gx - model_x s0) (gy - model_y s0) true
               (model_x s0) (model_y s0)).
  change (step Math_hypot s0 (pointerdown 0 gx gy))
    with (s1, @nil (float * float)).
  cbn iota.
  destruct (run_moves Math_hypot ps s1 eq_refl) as (_ & _ & _ & _ & _ & Hpos).
  destruct (run Math_hypot s1 (moves ps)) as [s2 taps2].
  cbn [fst] in Hpos |- *. rewrite Hpos.
  destruct ps as [|p ps]; [reflexivity|].
  rewrite (last_map_nonempty (placed s1) (p :: ps) _ (gx, gy))
    by discriminate.
  reflexivity.
Qed.

(** An event that is not a press leaves a state that is not dragging as
    it is, and calls no tap handler. *)
Lemma step_idle (Math_hypot : float -> float -> float)
  (s : State) (e : Event) :
  dragging s = false -> isPress e = false -> step Math_hypot s e = (s, []).
Proof.
  intros Hd Hp. destruct s as [d px py t x y]. cbn in Hd. subst d.
  destruct e as [b gx gy|gx gy|gx gy|]; cbn in Hp |- *;
    [now rewrite Hp | reflexivity | reflexivity | reflexivity].
Qed.

(** X6.  Without a press of the primary button nothing happens: from a
    state that is not dragging, events among which there is no such press
    leave the state, the position of the model included, as it is and
    call no tap handler; this is so in particular after
    [pointerupoutside], which ends a drag without a tap. *)
Theorem no_press_no_effect (Math_hypot : float -> float -> float)
  (s : State) (es : list Event) :
  forallb (fun e => negb (isPress e)) es = true ->
  (dragging s = false -> run Math_hypot s es = (s, [])) /\
  snd (run Math_hypot s (pointerupoutside :: es)) = [] /\
  position (fst (run Math_hypot s (pointerupoutside :: es))) = position s /\
  dragging (fst (run Math_hypot s (pointerupoutside :: es))) = false.
Proof.
  intros Hes.
  assert (Hidle : forall s',
             dragging s' = false -> run Math_hypot s' es = (s', [])).
  { induction es as [|e es IH]; intros s' Hd; [reflexivity|].
    cbn [forallb] in Hes. apply andb_true_iff in Hes as [He Hes].
    apply negb_true_iff in He.
    cbn [run]. rewrite (step_idle Math_hypot s' e Hd He), (IH Hes s' Hd).
    reflexivity. }
  split; [apply Hidle|].
  cbn [run step].
  rewrite (Hidle (mkState false (pointerX s) (pointerY s) (isTap s)
                    (model_x s) (model_y s)) eq_refl).
  repeat split.
Qed.

Lemma no_press_no_effect_witness :
  run hypot_sqrt (initial 0 0)
    [pointermove 200 100; pointerdown 2 10 10; pointerup 200 100]
  = (initial 0 0, []).
Proof.
  destruct (no_press_no_effect hypot_sqrt (initial 0 0)
              [pointermove 200 100; pointerdown 2 10 10; pointerup 200 100]
              eq_refl) as [H _].
  exact (H eq_refl).
Defined.

Lemma step_taps (Math_hypot : float -> float -> float)
  (s : State) (e : Event) :
  (List.length (snd (step Math_hypot s e))
   + (if armed (fst (step Math_hypot s e)) then 1 else 0)
   <= (if armed s then 1 else 0) + (if isPress e then 1 else 0))%nat /\
  (forall t,
      In t (snd (step Math_hypot s e)) -> e = pointerup (fst t) (snd t)).
Proof.
  unfold armed. destruct s as [d px py t x y].
  destruct e as [b gx gy|gx gy|gx gy|];
    cbn [step isPress dragging isTap pointerX pointerY model_x model_y].
  - destruct (b =? 0)%Z; cbn; split; try tauto;
      destruct d, t; cbn; lia.
  - destruct d; cbn [fst snd dragging isTap List.length In andb];
      [|split; [lia | tauto]].
    destruct (dragThreshold <? _), t; cbn; split; try tauto; lia.
  - destruct d, t; cbn; split; try tauto; try lia.
    intros p [<-|[]]. reflexivity.
  - destruct d, t; cbn; split; try tauto; lia.
Qed.

(** X7.  The tap handler is called at most once for each press of the
    primary button, at most once more when the sequence starts in a drag
    that can still be a tap, and only by a [pointerup], with the point of
    that event. *)
Theorem taps_bounded_by_presses (Math_hypot : float -> float -> float)
  (s : State) (es : list Event) :
  (List.length (snd (run Math_hypot s es))
   <= (if armed s then 1 else 0) + presses es)%nat /\
  (forall t,
      In t (snd (run Math_hypot s es)) -> In (pointerup (fst t) (snd t)) es).
Proof.
  revert s. induction es as [|e es IH]; intros s.
  - cbn. split; [lia | tauto].
  - cbn [run]. destruct (step_taps Math_hypot s e) as [Hlen Hin].
    destruct (step Math_hypot s e) as [s1 taps1]. cbn [fst snd] in Hlen, Hin.
    destruct (IH s1) as [IHlen IHin].
    destruct (run Math_hypot s1 es) as [s2 taps2].
    cbn [fst snd] in IHlen, IHin |- *.
    split.
    + rewrite length_app. unfold presses in *. cbn [filter].
      destruct (isPress e); cbn [List.length]; lia.
    + intros t Ht. apply in_app_or in Ht as [Ht|Ht].
      * left. now apply Hin.
      * right. now apply IHin.
Qed.

End GestureFacts.


(* ------------------------------------------------------------------------- *)
(** ** Hover and context menu *)

Section HoverFacts.
Import Drag DragSpec Hover.
Local Open Scope float_scope.

Lemma taps_app (out1 out2 : list Effect) :
  taps (out1 ++ out2) = taps out1 ++ taps out2.
Proof. unfold taps. apply flat_map_app. Qed.

Lemma taps_of_taps (ps : list (float * float)) :
  taps (map (fun p => tap (fst p) (snd p)) ps) = ps.
Proof.
  induction ps as [|[x y] ps IH]; [reflexivity|].
  cbn. f_equal. exact IH.
Qed.

Lemma step_shell_event (Math_hypot : float -> float -> float)
  (shell : Shell) (s : State) (ev : Event) :
  match ev with gesture _ => False | _ => True end ->
  fst (Hover.step Math_hypot shell s ev) = s /\
  taps (snd (Hover.step Math_hypot shell s ev)) = [].
Proof.
  destruct ev as [e| | |]; [tauto| | |]; intros _; cbn; split; auto;
    unfold ipc_send;
    destruct (isPet shell && electronApi shell), (ipcRenderer shell);
    try destruct (dragging s); reflexivity.
Qed.

(** X8.  The hover and right-click handlers do not interfere with
    dragging: whatever the set-up, the state of the gesture and the taps
    after a sequence of events are those of the drag handlers run on the
    drag events of the sequence alone. *)
Theorem hover_leaves_gestures_alone
  (Math_hypot : float -> float -> float)
  (shell : Shell) (s : State) (evs : list Hover.Event) :
  fst (Hover.run Math_hypot shell s evs)
  = fst (Drag.run Math_hypot s (gestures evs)) /\
  taps (snd (Hover.run Math_hypot shell s evs))
  = snd (Drag.run Math_hypot s (gestures evs)).
Proof.
  revert s. induction evs as [|ev evs IH]; intros s; [split; reflexivity|].
  cbn [Hover.run].
  destruct ev as [e| | |].
  - cbn [Hover.step gestures flat_map app Drag.run].
    destruct (Drag.step Math_hypot s e) as [s1 taps1].
    destruct (IH s1) as [IH1 IH2].
    destruct (Hover.run Math_hypot shell s1 evs) as [s2 out2].
    fold (gestures evs).
    destruct (Drag.run Math_hypot s1 (gestures evs)) as [s2' taps2].
    cbn [fst snd] in IH1, IH2 |- *. subst.
    split; [reflexivity|]. rewrite taps_app, taps_of_taps. reflexivity.
  - destruct (step_shell_event Math_hypot shell s pointerenter I) as [H1 H2].
    destruct (Hover.step Math_hypot shell s pointerenter) as [s1 out1].
    cbn [fst snd] in H1, H2. subst s1.
    destruct (IH s) as [IH1 IH2].
    destruct (Hover.run Math_hypot shell s evs) as [s2 out2].
    cbn [fst snd gestures flat_map app] in *. fold (gestures evs).
    split; [exact IH1|]. rewrite taps_app, H2. exact IH2.
  - destruct (step_shell_event Math_hypot shell s pointerleave I) as [H1 H2].
    destruct (Hover.step Math_hypot shell s pointerleave) as [s1 out1].
    cbn [fst snd] in H1, H2. subst s1.
    destruct (IH s) as [IH1 IH2].
    destruct (Hover.run Math_hypot shell s evs) as [s2 out2].
    cbn [fst snd gestures flat_map app] in *. fold (gestures evs).
    split; [exact IH1|]. rewrite taps_app, H2. exact IH2.
  - destruct (step_shell_event Math_hypot shell s rightdown I) as [H1 H2].
    destruct (Hover.step Math_hypot shell s rightdown) as [s1 out1].
    cbn [fst snd] in H1, H2. subst s1.
    destruct (IH s) as [IH1 IH2].
    destruct (Hover.run Math_hypot shell s evs) as [s2 out2].
    cbn [fst snd gestures flat_map app] in *. fold (gestures evs).
    split; [exact IH1|]. rewrite taps_app, H2. exact IH2.
Qed.

Lemma existsb_app_false {A : Type} (f : A -> bool) (l1 l2 : list A) :
  existsb f l1 = false -> existsb f l2 = false -> existsb f (l1 ++ l2) = false.
Proof. intros H1 H2. now rewrite existsb_app, H1, H2. Qed.

Lemma existsb_taps_false (f : Effect -> bool) (ps : list (float * float)) :
  (forall x y, f (tap x y) = false) ->
  existsb f (map (fun p => tap (fst p) (snd p)) ps) = false.
Proof.
  intros Hf. induction ps as [|p ps IH]; [reflexivity|].
  cbn. now rewrite Hf, IH.
Qed.

(** X9.  Outside pet mode, or without [window.electron], the handlers
    send nothing to the desktop shell and prevent no default action,
    whatever the events; and without an [ipcRenderer] nothing is sent. *)
Theorem shell_effects_need_pet_mode
  (Math_hypot : float -> float -> float)
  (shell : Shell) (s : State) (evs : list Hover.Event) :
  (isPet shell && electronApi shell = false ->
   existsb isShellEffect (snd (Hover.run Math_hypot shell s evs)) = false) /\
  (ipcRenderer shell = false ->
   existsb (fun x => match x with send _ => true | _ => false end)
     (snd (Hover.run Math_hypot shell s evs)) = false).
Proof.
  split; intros Hsh; revert s; induction evs as [|ev evs IH]; intros s;
    try reflexivity; cbn [Hover.run];
    specialize (IH (fst (Hover.step Math_hypot shell s ev)));
    destruct (Hover.step Math_hypot shell s ev) as [s1 out1] eqn:E;
    cbn [fst] in IH;
    destruct (Hover.run Math_hypot shell s1 evs) as [s2 out2];
    cbn [snd] in IH |- *;
    apply existsb_app_false; auto;
    destruct ev as [e| | |]; cbn in E; unfold ipc_send in E;
    rewrite ?Hsh in E;
    try (destruct (Drag.step Math_hypot s e) as [s' taps']);
    try destruct (isPet shell && electronApi shell);
    try destruct (dragging s);
    injection E as <- <-; try reflexivity;
    apply existsb_taps_false; reflexivity.
Qed.

Lemma shell_effects_need_pet_mode_witness :
  existsb isShellEffect
    (snd (Hover.run hypot_sqrt (mkShell false true true) (initial 0 0)
            [pointerenter; rightdown; gesture (pointerdown 0 5 5);
             pointerleave; gesture (pointerup 5 5)])) = false.
Proof.
  destruct (shell_effects_need_pet_mode hypot_sqrt (mkShell false true true)
              (initial 0 0)
              [pointerenter; rightdown; gesture (pointerdown 0 5 5);
               pointerleave; gesture (pointerup 5 5)]) as [H _].
  exact (H eq_refl).
Defined.

Lemma step_keeps_dragging (Math_hypot : float -> float -> float)
  (shell : Shell) (s : State) (ev : Hover.Event) :
  dragging s = true -> endsDrag ev = false ->
  dragging (fst (Hover.step Math_hypot shell s ev)) = true /\
  existsb isHoverLeft (snd (Hover.step Math_hypot shell s ev)) = false.
Proof.
  intros Hd He. destruct ev as [e| | |]; cbn.
  - destruct e as [b gx gy|gx gy|gx gy|]; cbn in He |- *; try discriminate.
    + destruct (b =? 0)%Z; cbn; auto.
    + rewrite Hd. cbn. auto.
  - split; [exact Hd|]. unfold ipc_send.
    destruct (isPet shell && electronApi shell), (ipcRenderer shell);
      reflexivity.
  - split; [exact Hd|]. rewrite Hd.
    destruct (isPet shell && electronApi shell); reflexivity.
  - split; [exact Hd|]. unfold ipc_send.
    destruct (isPet shell && electronApi shell), (ipcRenderer shell);
      reflexivity.
Qed.

(** X10.  While a drag lasts the desktop shell is never told that the
    pointer left the model: from a dragging state, events among which
    none ends the drag send no hover message with [false], and the drag
    goes on. *)
Theorem no_hover_left_while_dragging
  (Math_hypot : float -> float -> float)
  (shell : Shell) (s : State) (evs : list Hover.Event) :
  dragging s = true ->
  existsb endsDrag evs = false ->
  dragging (fst (Hover.run Math_hypot shell s evs)) = true /\
  existsb isHoverLeft (snd (Hover.run Math_hypot shell s evs)) = false.
Proof.
  revert s. induction evs as [|ev evs IH]; intros s Hd He; [auto|].
  cbn [existsb] in He. apply orb_false_iff in He as [He Hevs].
  cbn [Hover.run].
  destruct (step_keeps_dragging Math_hypot shell s ev Hd He) as [Hd1 Hout1].
  destruct (Hover.step Math_hypot shell s ev) as [s1 out1].
  cbn [fst snd] in Hd1, Hout1.
  destruct (IH s1 Hd1 Hevs) as [Hd2 Hout2].
  destruct (Hover.run Math_hypot shell s1 evs) as [s2 out2]. cbn [fst snd] in *.
  split; [exact Hd2 | now apply existsb_app_false].
Qed.

Lemma no_hover_left_while_dragging_witness :
  existsb isHoverLeft
    (snd (Hover.run hypot_sqrt (mkShell true true true)
            (fst (Drag.step hypot_sqrt (initial 0 0) (pointerdown 0 5 5)))
            [pointerleave; gesture (pointermove 9 9); pointerenter;
             pointerleave])) = false.
Proof.
  apply (no_hover_left_while_dragging hypot_sqrt (mkShell true true true)
           (fst (Drag.step hypot_sqrt (initial 0 0) (pointerdown 0 5 5)))
           [pointerleave; gesture (pointermove 9 9); pointerenter;
            pointerleave] eq_refl eq_refl).
Defined.

End HoverFacts.

(* ------------------------------------------------------------------------- *)
(** ** Speech tasks: the model handle, the callbacks and the polling timer *)

Section PlaybackFacts.
Import Js AudioTask AudioSpec PlaybackSpec.
Local Open Scope string_scope.
Local Open Scope list_scope.

Ltac run_stmt :=
  cbv [try_catch checkFinished callback bind emit resolve throw ret when
       set_isFinished set_listening set_polling
       trace promise isFinished listening polling].

(** Splits a run with a model handle, outside the interrupted state, by
    what the expression and the audio do. *)
Ltac playback_cases model options :=
  unfold setupPlayback, reportSetupError, call_expression, call_speak;
  let e := fresh "e" in
  destruct (firstExpression options) as [e|];
  [destruct (expression model e) as [?|]|];
  destruct (nonempty (audioBase64 options));
  try (destruct (speak model
                   ("data:audio/wav;base64," ++ audioBase64 options)%string)
         as [?|[[|?]|]]);
  run_stmt.

Lemma handleAudioPlayback_with_model aiState (model : Model) options :
  String.eqb aiState "interrupted" = false ->
  handleAudioPlayback aiState (Some model) options
  = new_Promise
      (fun _ =>
         try_catch (setupPlayback model options) reportSetupError
           (mkRun (displayTrace options) Pending false false false)).
Proof.
  intros Hs. unfold handleAudioPlayback, new_Promise.
  now rewrite (executor_unfold _ _ _ Hs).
Qed.

Lemma handleAudioPlayback_without_model aiState options :
  String.eqb aiState "interrupted" = false ->
  handleAudioPlayback aiState None options
  = mkRun
      (displayTrace options
       ++ [console_error "PIXI Live2D model not found on window.live2dModel"])
      Fulfilled false false false.
Proof.
  intros Hs. unfold handleAudioPlayback, new_Promise, executor. rewrite Hs.
  unfold bind at 1. now rewrite updateDisplayText_run.
Qed.

Lemma displayTrace_only_display (options : AudioTaskOptions) :
  forallb isDisplayEffect (displayTrace options) = true.
Proof.
  rewrite displayTrace_cases.
  destruct (displayText options) as [dt|]; [|reflexivity].
  destruct (nonempty (audioBase64 options)), (isTrue (forwarded options));
    reflexivity.
Qed.

Lemma filter_none {A : Type} (f g : A -> bool) (l : list A) :
  (forall x, g x = true -> f x = false) ->
  forallb g l = true -> filter f l = [].
Proof.
  intros Hfg. induction l as [|x l IH]; [reflexivity|]. cbn.
  intros H. apply andb_true_iff in H as [Hx Hl].
  rewrite (Hfg x Hx). auto.
Qed.

Lemma existsb_none {A : Type} (f g : A -> bool) (l : list A) :
  (forall x, g x = true -> f x = false) ->
  forallb g l = true -> existsb f l = false.
Proof.
  intros Hfg. induction l as [|x l IH]; [reflexivity|]. cbn.
  intros H. apply andb_true_iff in H as [Hx Hl].
  rewrite (Hfg x Hx). auto.
Qed.

(** A later event only adds console lines and timers to the trace. *)
Lemma deliver_trace (r : Run) (ev : Later) :
  exists extra,
    trace (deliver r ev) = trace r ++ extra /\
    forallb isLaterEffect extra = true.
Proof.
  destruct r as [t p f l q].
  destruct ev as [[|err]|]; destruct l, q, f; cbn;
    solve [ exists []; split; [now rewrite app_nil_r | reflexivity]
          | eexists; split; reflexivity ].
Qed.

Lemma deliverAll_trace (evs : list Later) :
  forall r,
    exists extra,
      trace (deliverAll r evs) = trace r ++ extra /\
      forallb isLaterEffect extra = true.
Proof.
  unfold deliverAll. induction evs as [|ev evs IH]; intros r.
  - exists []. split; [now rewrite app_nil_r | reflexivity].
  - cbn [fold_left].
    destruct (deliver_trace r ev) as (x1 & H1 & Hx1).
    destruct (IH (deliver r ev)) as (x2 & H2 & Hx2).
    exists (x1 ++ x2). rewrite H2, H1, app_assoc.
    split; [reflexivity|]. now rewrite forallb_app, Hx1, Hx2.
Qed.

(** X11.  The calls a task makes on the model handle are these, in this
    order, and no later event adds one: nothing in the interrupted state
    or without a handle; otherwise the first expression, if the task has
    one, and then, unless setting the expression threw, one call of
    [model.speak] with the audio as a data URL when the task has audio. *)
Theorem model_calls_of_a_task
  aiState (live2dModel : option Model) (options : AudioTaskOptions)
  (evs : list Later) :
  filter isModelEffect
    (trace (deliverAll (handleAudioPlayback aiState live2dModel options) evs))
  = modelCalls aiState live2dModel options.
Proof.
  destruct (deliverAll_trace evs
              (handleAudioPlayback aiState live2dModel options))
    as (extra & -> & Hextra).
  rewrite filter_app,
    (filter_none isModelEffect isLaterEffect extra), app_nil_r;
    [|now intros [] | exact Hextra].
  assert (Hd : filter isModelEffect (displayTrace options) = []).
  { apply (filter_none _ isDisplayEffect);
      [now intros [] | apply displayTrace_only_display]. }
  unfold modelCalls, expressionThrows, speakUrl.
  destruct (String.eqb aiState "interrupted") eqn:Hs.
  - unfold handleAudioPlayback, new_Promise, executor. rewrite Hs.
    reflexivity.
  - destruct live2dModel as [model|].
    + rewrite (handleAudioPlayback_with_model _ _ _ Hs). unfold new_Promise.
      revert Hd. generalize (displayTrace options). intros t Hd.
      playback_cases model options;
        rewrite ?filter_app, Hd; reflexivity.
    + rewrite (handleAudioPlayback_without_model _ _ Hs). cbn [trace].
      now rewrite filter_app, Hd.
Qed.

(** X12.  A toast is shown exactly when setting up playback threw: the
    task ran with a model handle outside the interrupted state, and
    setting the expression threw or the task has audio and starting it
    threw.  An error reported later through [onError] shows none. *)
Theorem toast_exactly_on_setup_error
  aiState (live2dModel : option Model) (options : AudioTaskOptions)
  (evs : list Later) :
  existsb isToast
    (trace (deliverAll (handleAudioPlayback aiState live2dModel options) evs))
  = match live2dModel with
    | Some model =>
        negb (String.eqb aiState "interrupted") && setupThrows model options
    | None => false
    end.
Proof.
  destruct (deliverAll_trace evs
              (handleAudioPlayback aiState live2dModel options))
    as (extra & -> & Hextra).
  rewrite existsb_app,
    (existsb_none isToast isLaterEffect extra), orb_false_r;
    [|now intros [] | exact Hextra].
  assert (Hd : existsb isToast (displayTrace options) = false).
  { apply (existsb_none _ isDisplayEffect);
      [now intros [] | apply displayTrace_only_display]. }
  unfold setupThrows, expressionThrows, speakThrows, speakUrl.
  destruct (String.eqb aiState "interrupted") eqn:Hs.
  - unfold handleAudioPlayback, new_Promise, executor. rewrite Hs.
    now destruct live2dModel.
  - destruct live2dModel as [model|].
    + rewrite (handleAudioPlayback_with_model _ _ _ Hs). unfold new_Promise.
      revert Hd. generalize (displayTrace options). intros t Hd.
      playback_cases model options;
        rewrite ?existsb_app, Hd; reflexivity.
    + rewrite (handleAudioPlayback_without_model _ _ Hs). cbn [trace].
      now rewrite existsb_app, Hd.
Qed.

Lemma timeouts_app (es1 es2 : list Effect) :
  timeouts (es1 ++ es2) = (timeouts es1 + timeouts es2)%nat.
Proof. unfold timeouts. now rewrite filter_app, length_app. Qed.

Lemma timeouts_displayTrace (options : AudioTaskOptions) :
  timeouts (displayTrace options) = 0%nat.
Proof.
  unfold timeouts.
  rewrite (filter_none isTimeout isDisplayEffect);
    [reflexivity | now intros [] | apply displayTrace_only_display].
Qed.

(** The run of a task with audio whose playback started: the handle holds
    the callbacks, the promise is pending and the timer is set. *)
Lemma playback_started aiState (model : Model) options :
  String.eqb aiState "interrupted" = false ->
  nonempty (audioBase64 options) = true ->
  expressionThrows model options = false ->
  speak model (speakUrl options) = speak_returns None ->
  promise (handleAudioPlayback aiState (Some model) options) = Pending /\
  isFinished (handleAudioPlayback aiState (Some model) options) = false /\
  listening (handleAudioPlayback aiState (Some model) options) = true /\
  polling (handleAudioPlayback aiState (Some model) options) = true.
Proof.
  intros Hs Hne He Hsp.
  rewrite (handleAudioPlayback_with_model _ _ _ Hs). unfold new_Promise.
  unfold expressionThrows in He. unfold speakUrl in Hsp.
  unfold setupPlayback, reportSetupError, call_expression, call_speak.
  rewrite Hne, Hsp.
  destruct (firstExpression options) as [e|];
    [destruct (expression model e); [discriminate|]|];
    run_stmt; repeat split.
Qed.

(** The run of a task without audio: the promise is fulfilled at once, no
    callback is awaited, and the timer is set all the same. *)
Lemma silent_task_run aiState (model : Model) options :
  String.eqb aiState "interrupted" = false ->
  nonempty (audioBase64 options) = false ->
  expressionThrows model options = false ->
  promise (handleAudioPlayback aiState (Some model) options) = Fulfilled /\
  isFinished (handleAudioPlayback aiState (Some model) options) = false /\
  listening (handleAudioPlayback aiState (Some model) options) = false /\
  polling (handleAudioPlayback aiState (Some model) options) = true /\
  timeouts (trace (handleAudioPlayback aiState (Some model) options)) = 1%nat.
Proof.
  intros Hs Hne He.
  rewrite (handleAudioPlayback_with_model _ _ _ Hs). unfold new_Promise.
  unfold expressionThrows in He.
  unfold setupPlayback, reportSetupError, call_expression, call_speak.
  rewrite Hne.
  pose proof (timeouts_displayTrace options) as Ht. revert Ht.
  generalize (displayTrace options). intros t Ht.
  destruct (firstExpression options) as [e|];
    [destruct (expression model e); [discriminate|]|];
    run_stmt; repeat split; rewrite ?timeouts_app, ?Ht; reflexivity.
Qed.

Lemma deliver_listening (r : Run) (ev : Later) :
  listening (deliver r ev) = listening r.
Proof.
  destruct r as [t p f l q].
  destruct ev as [[|err]|]; destruct l, q, f; reflexivity.
Qed.

(** X13.  Once playback of a task with audio has started without the
    handle having called back, the promise is settled by the first
    callback and by nothing else: it is pending as long as only the
    polling timer fires, and fulfilled from the first call of [onFinish]
    or [onError] on. *)
Theorem pending_until_callback
  aiState (model : Model) (options : AudioTaskOptions) (evs : list Later) :
  String.eqb aiState "interrupted" = false ->
  nonempty (audioBase64 options) = true ->
  expressionThrows model options = false ->
  speak model (speakUrl options) = speak_returns None ->
  promise (deliverAll (handleAudioPlayback aiState (Some model) options) evs)
  = if existsb isCalled evs then Fulfilled else Pending.
Proof.
  intros Hs Hne He Hsp.
  destruct (playback_started aiState model options Hs Hne He Hsp)
    as (Hp & _ & Hl & _).
  revert Hp Hl.
  generalize (handleAudioPlayback aiState (Some model) options).
  assert (Hdone : forall evs r,
             promise r = Fulfilled -> promise (deliverAll r evs) = Fulfilled).
  { clear. intros evs. unfold deliverAll.
    induction evs as [|ev evs IH]; intros r Hp; [exact Hp|].
    cbn [fold_left]. apply IH.
    destruct r as [t p f l q]. cbn in Hp. subst p.
    destruct ev as [[|err]|]; destruct l, q, f; reflexivity. }
  induction evs as [|ev evs IH]; intros r Hp Hl; [exact Hp|].
  unfold deliverAll. cbn [fold_left existsb]. fold (deliverAll (deliver r ev) evs).
  destruct ev as [c|]; cbn [isCalled orb].
  - apply Hdone. unfold deliver. rewrite Hl.
    apply callback_run. rewrite Hp. discriminate.
  - apply IH; [|now rewrite deliver_listening].
    destruct r as [t p f l q]. cbn in Hp |- *. subst p.
    destruct q, f; reflexivity.
Qed.

Lemma pending_until_callback_witness :
  promise
    (deliverAll
       (handleAudioPlayback "thinking-speaking" (Some quietModel)
          (sampleOptions "UklGRg==" None))
       [timer; timer; called (onError "decode error"); timer])
  = Fulfilled.
Proof.
  exact (pending_until_callback "thinking-speaking" quietModel
           (sampleOptions "UklGRg==" None)
           [timer; timer; called (onError "decode error"); timer]
           eq_refl eq_refl eq_refl eq_refl).
Defined.

(** X14.  A task without audio, run with a model handle, fulfils its
    promise at once but never stops polling: [isFinished] is set only by
    the callbacks of [model.speak], which is not called, so every firing
    of the timer sets the timer again. *)
Theorem silent_task_polls_forever
  aiState (model : Model) (options : AudioTaskOptions) (evs : list Later) :
  String.eqb aiState "interrupted" = false ->
  nonempty (audioBase64 options) = false ->
  expressionThrows model options = false ->
  promise (handleAudioPlayback aiState (Some model) options) = Fulfilled /\
  polling (deliverAll (handleAudioPlayback aiState (Some model) options) evs)
  = true /\
  timeouts
    (trace (deliverAll (handleAudioPlayback aiState (Some model) options) evs))
  = (1 + timers evs)%nat.
Proof.
  intros Hs Hne He.
  destruct (silent_task_run aiState model options Hs Hne He)
    as (Hp & Hf & Hl & Hq & Ht).
  split; [exact Hp|].
  revert Hf Hl Hq Ht.
  generalize (handleAudioPlayback aiState (Some model) options).
  generalize 1%nat as n.
  induction evs as [|ev evs IH]; intros n r Hf Hl Hq Ht.
  - unfold timers. cbn. split; [exact Hq | lia].
  - unfold deliverAll. cbn [fold_left]. fold (deliverAll (deliver r ev) evs).
    destruct r as [t p f l q]. cbn in Hf, Hl, Hq. cbn [trace] in Ht.
    subst f l q.
    destruct ev as [c|].
    + change (deliver (mkRun t p false false true) (called c))
        with (mkRun t p false false true).
      unfold timers. cbn [filter isCalled negb].
      apply (IH n); auto.
    + change (deliver (mkRun t p false false true) timer)
        with (mkRun (t ++ [setTimeout 100]) p false false true).
      destruct (IH (S n) (mkRun (t ++ [setTimeout 100]) p false false true))
        as [IHq IHt]; auto.
      { cbn [trace]. rewrite timeouts_app, Ht. cbn. lia. }
      split; [exact IHq|]. rewrite IHt. unfold timers.
      cbn [filter isCalled negb List.length]. lia.
Qed.

Lemma silent_task_polls_forever_witness :
  timeouts
    (trace
       (deliverAll
          (handleAudioPlayback "thinking-speaking" (Some quietModel)
             (sampleOptions "" None))
          [timer; timer; timer]))
  = 4%nat.
Proof.
  destruct (silent_task_polls_forever "thinking-speaking" quietModel
              (sampleOptions "" None) [timer; timer; timer]
              eq_refl eq_refl eq_refl) as (_ & _ & H).
  exact H.
Defined.

(** The line a callback writes to the console. *)
Lemma deliver_called (t : list Effect) p f q (c : Callback) :
  exists line,
    isTimeout line = false /\
    deliver (mkRun t p f true q) (called c)
    = mkRun (t ++ [line]) (match p with Rejected => Rejected | _ => Fulfilled end)
        true true q.
Proof.
  destruct c as [|err]; eexists; (split; [|reflexivity]); reflexivity.
Qed.

Lemma deliver_timer (t : list Effect) p f l q :
  deliver (mkRun t p f l q) timer =
  if q
  then if f then mkRun t p f l false
       else mkRun (t ++ [setTimeout 100]) p f l true
  else mkRun t p f l q.
Proof. destruct q, f; reflexivity. Qed.

Lemma timeouts_line (t : list Effect) (line : Effect) :
  isTimeout line = false -> timeouts (t ++ [line]) = timeouts t.
Proof.
  intros H. rewrite timeouts_app. unfold timeouts at 2. cbn. rewrite H.
  cbn. lia.
Qed.

(** Once [isFinished] is set and the timer is off, it stays off. *)
Lemma polling_stays_off (evs : list Later) :
  forall t p l,
    polling (fold_left deliver evs (mkRun t p true l false)) = false /\
    timeouts (trace (fold_left deliver evs (mkRun t p true l false)))
    = timeouts t.
Proof.
  induction evs as [|ev evs IH]; intros t p l; [split; reflexivity|].
  cbn [fold_left]. destruct ev as [c|].
  - destruct l.
    + destruct (deliver_called t p true false c) as (line & Hline & ->).
      destruct (IH (t ++ [line]) (match p with Rejected => Rejected | _ => Fulfilled end)
                  true) as [H1 H2].
      split; [exact H1|]. now rewrite H2, timeouts_line.
    + change (deliver (mkRun t p true false false) (called c))
        with (mkRun t p true false false).
      apply IH.
  - rewrite deliver_timer. apply IH.
Qed.

(** X15.  After a callback of [model.speak] the polling ends at the next
    firing of the timer: from then on the timer is not set again,
    whatever else happens. *)
Theorem polling_ends_after_callback
  aiState (live2dModel : option Model) (options : AudioTaskOptions)
  (before : list Later) (c : Callback) (after : list Later) :
  listening
    (deliverAll (handleAudioPlayback aiState live2dModel options) before)
  = true ->
  polling
    (deliverAll (handleAudioPlayback aiState live2dModel options)
       (before ++ called c :: timer :: after)) = false /\
  timeouts
    (trace
       (deliverAll (handleAudioPlayback aiState live2dModel options)
          (before ++ called c :: timer :: after)))
  = timeouts
      (trace
         (deliverAll (handleAudioPlayback aiState live2dModel options) before)).
Proof.
  unfold deliverAll. rewrite fold_left_app.
  generalize (fold_left deliver before
                (handleAudioPlayback aiState live2dModel options)).
  intros r Hl. cbn [fold_left].
  destruct r as [t p f l q]. cbn in Hl. subst l. cbn [trace].
  destruct (deliver_called t p f q c) as (line & Hline & ->).
  rewrite deliver_timer.
  destruct q;
    destruct (polling_stays_off after (t ++ [line])
                (match p with Rejected => Rejected | _ => Fulfilled end) true)
      as [H1 H2];
    (split; [exact H1|]); now rewrite H2, timeouts_line.
Qed.

Lemma polling_ends_after_callback_witness :
  polling
    (deliverAll
       (handleAudioPlayback "thinking-speaking" (Some quietModel)
          (sampleOptions "UklGRg==" None))
       ([timer] ++ called onFinish :: timer :: [timer; timer])) = false.
Proof.
  destruct (polling_ends_after_callback "thinking-speaking" (Some quietModel)
              (sampleOptions "UklGRg==" None) [timer] onFinish [timer; timer]
              eq_refl) as [H _].
  exact H.
Defined.

Lemma deliverAll_listening (evs : list Later) :
  forall r, listening (deliverAll r evs) = listening r.
Proof.
  unfold deliverAll. induction evs as [|ev evs IH]; intros r; [reflexivity|].
  cbn [fold_left]. now rewrite IH, deliver_listening.
Qed.

(** The polling timer does not settle the promise. *)
Lemma timers_leave_promise (evs : list Later) :
  forall r,
    existsb isCalled evs = false -> promise (deliverAll r evs) = promise r.
Proof.
  unfold deliverAll. induction evs as [|ev evs IH]; intros r He;
    [reflexivity|].
  cbn [existsb] in He. apply orb_false_iff in He as [Hev Hevs].
  cbn [fold_left]. rewrite (IH _ Hevs).
  destruct ev as [c|]; [discriminate|].
  destruct r as [t p f l q]. destruct q, f; reflexivity.
Qed.

(** The run of a task with audio when the handle calls a callback before
    [model.speak] returns: the promise is fulfilled at once. *)
Lemma playback_called_back aiState (model : Model) options (c : Callback) :
  String.eqb aiState "interrupted" = false ->
  nonempty (audioBase64 options) = true ->
  expressionThrows model options = false ->
  speak model (speakUrl options) = speak_returns (Some c) ->
  promise (handleAudioPlayback aiState (Some model) options) = Fulfilled /\
  isFinished (handleAudioPlayback aiState (Some model) options) = true.
Proof.
  intros Hs Hne He Hsp.
  rewrite (handleAudioPlayback_with_model _ _ _ Hs). unfold new_Promise.
  unfold expressionThrows in He. unfold speakUrl in Hsp.
  unfold setupPlayback, reportSetupError, call_expression, call_speak.
  rewrite Hne, Hsp.
  destruct (firstExpression options) as [e|];
    [destruct (expression model e); [discriminate|]|];
    destruct c; run_stmt; repeat split.
Qed.

(** C7.  The promise of [handleAudioPlayback] is never rejected, whatever
    happens afterwards.  An exception thrown by [model.expression] or
    [model.speak] while playback is set up is caught, reported by a toast
    and resolves the promise.  When playback of a task with audio starts,
    the handle holds the callbacks and the promise is pending, and stays
    so while only the polling timer fires; a call of [onError] then
    resolves it and sets [isFinished], just as a call of [onFinish] does;
    and a call of either before [model.speak] returns resolves it at
    once. *)
Theorem handleAudioPlayback_never_rejects
  aiState (live2dModel : option Model) (options : AudioTaskOptions) :
  (forall evs,
      promise (deliverAll (handleAudioPlayback aiState live2dModel options) evs)
      <> Rejected) /\
  (forall model,
      live2dModel = Some model ->
      String.eqb aiState "interrupted" = false ->
      (exists e error,
          firstExpression options = Some e /\
          expression model e = Some error) \/
      (nonempty (audioBase64 options) = true /\
       exists error,
         speak model ("data:audio/wav;base64," ++ audioBase64 options)%string
         = speak_throws error) ->
      promise (handleAudioPlayback aiState live2dModel options) = Fulfilled /\
      In (toaster_create "error" 2000)
        (trace (handleAudioPlayback aiState live2dModel options))) /\
  (forall model,
      live2dModel = Some model ->
      String.eqb aiState "interrupted" = false ->
      nonempty (audioBase64 options) = true ->
      expressionThrows model options = false ->
      speak model (speakUrl options) = speak_returns None ->
      promise (handleAudioPlayback aiState live2dModel options) = Pending /\
      listening (handleAudioPlayback aiState live2dModel options) = true /\
      forall evs,
        existsb isCalled evs = false ->
        promise
          (deliverAll (handleAudioPlayback aiState live2dModel options) evs)
        = Pending /\
        forall c,
          promise
            (deliver
               (deliverAll (handleAudioPlayback aiState live2dModel options)
                  evs) (called c)) = Fulfilled /\
          isFinished
            (deliver
               (deliverAll (handleAudioPlayback aiState live2dModel options)
                  evs) (called c)) = true) /\
  (forall model c,
      live2dModel = Some model ->
      String.eqb aiState "interrupted" = false ->
      nonempty (audioBase64 options) = true ->
      expressionThrows model options = false ->
      speak model (speakUrl options) = speak_returns (Some c) ->
      promise (handleAudioPlayback aiState live2dModel options) = Fulfilled) /\
  (forall evs error,
      listening (deliverAll (handleAudioPlayback aiState live2dModel options) evs)
      = true ->
      promise
        (deliver (deliverAll (handleAudioPlayback aiState live2dModel options) evs)
           (called (onError error))) = Fulfilled /\
      promise
        (deliver (deliverAll (handleAudioPlayback aiState live2dModel options) evs)
           (called onFinish)) = Fulfilled /\
      isFinished
        (deliver (deliverAll (handleAudioPlayback aiState live2dModel options) evs)
           (called (onError error)))
      = isFinished
          (deliver
             (deliverAll (handleAudioPlayback aiState live2dModel options) evs)
             (called onFinish))).
Proof.
  split; [|split; [|split; [|split]]].
  - intros evs. apply deliverAll_not_rejected, handleAudioPlayback_not_rejected.
  - intros model -> Hs Hthrow.
    unfold handleAudioPlayback, new_Promise.
    rewrite (executor_unfold _ _ _ Hs).
    generalize (displayTrace options) as t. intros t.
    unfold setupPlayback, reportSetupError, call_expression, call_speak.
    destruct Hthrow as [(e & error & -> & ->) | (-> & error & ->)].
    + run_stmt. split; [reflexivity|]. apply in_or_app. right. now left.
    + destruct (firstExpression options) as [e|];
        [destruct (expression model e) as [err|]|];
        run_stmt; (split; [reflexivity|]); apply in_or_app; right; now left.
  - intros model -> Hs Hne He Hsp.
    destruct (playback_started aiState model options Hs Hne He Hsp)
      as (Hp & _ & Hl & _).
    split; [exact Hp|]. split; [exact Hl|].
    intros evs Hevs.
    assert (Hp' : promise
                    (deliverAll
                       (handleAudioPlayback aiState (Some model) options) evs)
                  = Pending)
      by (now rewrite timers_leave_promise).
    split; [exact Hp'|]. intros c.
    unfold deliver. rewrite deliverAll_listening, Hl.
    destruct (callback_run c
                (deliverAll
                   (handleAudioPlayback aiState (Some model) options) evs))
      as (H1 & H2 & _); [rewrite Hp'; discriminate|].
    split; assumption.
  - intros model c -> Hs Hne He Hsp.
    now destruct (playback_called_back aiState model options c Hs Hne He Hsp).
  - intros evs error Hl. unfold deliver. rewrite Hl.
    assert (Hp : promise
                   (deliverAll
                      (handleAudioPlayback aiState live2dModel options) evs)
                 <> Rejected)
      by apply deliverAll_not_rejected, handleAudioPlayback_not_rejected.
    destruct (callback_run (onError error) _ Hp) as (-> & -> & _).
    destruct (callback_run onFinish _ Hp) as (-> & -> & _).
    auto.
Qed.

Lemma handleAudioPlayback_never_rejects_witness :
  (promise
     (handleAudioPlayback "thinking-speaking" (Some brokenModel)
        (sampleOptions "UklGRg==" None)) = Fulfilled /\
   In (toaster_create "error" 2000)
     (trace
        (handleAudioPlayback "thinking-speaking" (Some brokenModel)
           (sampleOptions "UklGRg==" None)))) /\
  promise
    (handleAudioPlayback "thinking-speaking" (Some quietModel)
       (sampleOptions "UklGRg==" None)) = Pending /\
  promise
    (deliverAll
       (handleAudioPlayback "thinking-speaking" (Some quietModel)
          (sampleOptions "UklGRg==" None)) [timer; timer]) = Pending /\
  promise
    (deliver
       (deliverAll
          (handleAudioPlayback "thinking-speaking" (Some quietModel)
             (sampleOptions "UklGRg==" None)) [timer; timer])
       (called (onError "decode error"))) = Fulfilled.
Proof.
  split.
  - destruct (handleAudioPlayback_never_rejects "thinking-speaking"
                (Some brokenModel) (sampleOptions "UklGRg==" None))
      as (_ & H & _).
    apply (H brokenModel); [reflexivity | reflexivity |].
    right. split; [reflexivity|]. exists "decode error". reflexivity.
  - destruct (handleAudioPlayback_never_rejects "thinking-speaking"
                (Some quietModel) (sampleOptions "UklGRg==" None))
      as (_ & _ & H & _).
    destruct (H quietModel eq_refl eq_refl eq_refl eq_refl eq_refl)
      as (Hp & _ & Hevs).
    split; [exact Hp|].
    destruct (Hevs [timer; timer] eq_refl) as (Hp' & Hc).
    split; [exact Hp'|].
    exact (proj1 (Hc (onError "decode error"))).
Defined.

End PlaybackFacts.

(* ------------------------------------------------------------------------- *)
(** ** The life of the model handle *)

Section HandleLife.
Import Js Lifecycle LifecycleSamples Teardown.
Local Open Scope string_scope.
Local Open Scope list_scope.

Lemma without_self (model : nat) : without model [model] = [].
Proof. unfold without. cbn. now rewrite Nat.eqb_refl. Qed.

Lemma apply_consistent (h : Hook) (op : Op) :
  consistent h -> consistent (apply h op).
Proof.
  unfold consistent. destruct h as [st mr lr il rd ds ia cs].
  cbn [stage modelRef loadingRef isLoading isModelReady].
  intros (Hst & Hrd & Hfl).
  destruct op as [canvas| | |modelInfo|modelInfo loaded]; cbn [apply].
  - unfold initApp. cbn [stage]. destruct st as [ch|], mr as [m|];
      try destruct canvas; cbn; auto.
    tauto.
  - unfold cleanupApp, cleanupModel. cbn [stage modelRef].
    destruct st as [ch|], mr as [m|]; cbn; auto;
      repeat split; auto; discriminate.
  - unfold cleanupModel. cbn [stage modelRef].
    destruct st as [ch|], mr as [m|]; cbn; auto;
      repeat split; auto; try discriminate.
    subst ch. apply without_self.
  - unfold loadModel_begin. cbn [stage loadingRef].
    destruct modelInfo as [info|], st as [ch|]; cbn; auto.
    destruct (String.eqb (url info) ""); cbn; auto.
    destruct lr; cbn; auto.
  - destruct loaded as [model|err].
    + rewrite loadModel_resume_fulfilled. cbn [snd].
      unfold setupModel. cbn [stage modelRef].
      destruct st as [ch|], modelInfo as [info|], mr as [m|]; cbn;
        repeat split; auto; try discriminate; try tauto.
      * subst ch. now rewrite without_self.
      * now subst ch.
    + rewrite loadModel_resume_rejected. cbn. auto.
Qed.

(** X16.  Whatever the order in which the application is created and
    torn down, loads are started, loaders settle and the model is cleaned
    up, the stage shows the current handle and nothing else, a model
    reported ready is there, and the two loading flags agree. *)
Theorem hook_stays_consistent (ops : list Op) :
  consistent (applyAll initial ops).
Proof.
  assert (H : forall h, consistent h -> consistent (applyAll h ops)).
  { unfold applyAll. induction ops as [|op ops IH]; intros h Hh; [exact Hh|].
    cbn [fold_left]. apply IH, apply_consistent, Hh. }
  apply H. unfold consistent, initial. cbn. repeat split; auto. discriminate.
Qed.

(** X17.  A load that succeeds swaps the handle: on a consistent hook
    with an application and no load in flight, a call of [loadModel] for
    a URL whose loader yields [model] leaves [model] alone on the stage,
    current, interactive and reported ready, the handle it replaces
    destroyed, and both loading flags cleared. *)
Theorem load_swaps_the_handle
  (info : ModelInfo) (model : nat) (h : Hook) :
  consistent h ->
  stage h <> None ->
  loadingRef h = false ->
  url info <> "" ->
  snd (loadModel (Some info) (fun _ => Ok model) h)
  = mkHook (Some [model]) (Some model) false false true
      (destroyed h ++ match modelRef h with Some old => [old] | None => [] end)
      (interactive h ++ [model])
      (console h ++ [log "Loading model:"]).
Proof.
  intros (Hst & _ & _) Hstage Hlr Hurl.
  unfold loadModel, loadModel_begin.
  destruct h as [st mr lr il rd ds ia cs]. cbn in Hst, Hstage, Hlr |- *.
  subst lr. destruct st as [ch|]; [|congruence].
  destruct (String.eqb_spec (url info) ""); [congruence|].
  rewrite loadModel_resume_fulfilled. cbn [snd].
  unfold setupModel. cbn [stage modelRef].
  destruct mr as [old|]; subst ch; cbn -[without].
  - now rewrite without_self.
  - now rewrite app_nil_r.
Qed.

Lemma load_swaps_the_handle_witness :
  snd (loadModel (Some sampleInfo) (fun _ => Ok 2%nat) showing)
  = mkHook (Some [2%nat]) (Some 2%nat) false false true [1%nat]
      [1%nat; 2%nat] [log "Loading model:"].
Proof.
  apply (load_swaps_the_handle sampleInfo 2 showing).
  - unfold consistent, showing. cbn. repeat split; auto. discriminate.
  - discriminate.
  - reflexivity.
  - discriminate.
Defined.

(** X18.  Teardown is safe to repeat, and complete: cleaning up the
    model or the application a second time changes nothing; and after
    [cleanupApp] on a consistent hook there is no application and no
    current handle, the model is not reported ready, and the handle that
    was current is destroyed. *)
Theorem teardown_is_idempotent (h : Hook) :
  cleanupModel (cleanupModel h) = cleanupModel h /\
  cleanupApp (cleanupApp h) = cleanupApp h /\
  (consistent h ->
   stage (cleanupApp h) = None /\
   modelRef (cleanupApp h) = None /\
   isModelReady (cleanupApp h) = false /\
   destroyed (cleanupApp h)
   = destroyed h ++ match modelRef h with Some m => [m] | None => [] end).
Proof.
  destruct h as [st mr lr il rd ds ia cs].
  destruct st as [ch|], mr as [m|];
    (split; [reflexivity|]); (split; [reflexivity|]);
    unfold consistent; cbn; intros (Hst & Hrd & _); try tauto;
    repeat split; auto; try (now rewrite app_nil_r);
    destruct rd; auto; now elim Hrd.
Qed.

Lemma teardown_is_idempotent_witness :
  destroyed (cleanupApp showing) = [1%nat].
Proof.
  destruct (teardown_is_idempotent showing) as (_ & _ & H).
  destruct H as (_ & _ & _ & H); [|exact H].
  unfold consistent, showing. cbn. repeat split; auto. discriminate.
Defined.

(** X19.  A handle that arrives after the application was torn down is
    dropped: when [cleanupApp] runs while a load is in flight and the
    loader then yields a handle, the handle is not put on a stage, does
    not become current, is not destroyed and is not reported ready; the
    loading flags are cleared. *)
Theorem handle_loaded_after_teardown_is_dropped
  (modelInfo : option ModelInfo) (model : nat) (h : Hook) :
  snd (loadModel_resume modelInfo (Ok model) (cleanupApp h))
  = mkHook None (modelRef (cleanupApp h)) false false
      (isModelReady (cleanupApp h)) (destroyed (cleanupApp h))
      (interactive h) (console h) /\
  (consistent h ->
   modelRef (snd (loadModel_resume modelInfo (Ok model) (cleanupApp h)))
   = None /\
   isModelReady (snd (loadModel_resume modelInfo (Ok model) (cleanupApp h)))
   = false /\
   (~ In model (destroyed h) -> modelRef h <> Some model ->
    ~ In model
        (destroyed
           (snd (loadModel_resume modelInfo (Ok model) (cleanupApp h)))))).
Proof.
  rewrite loadModel_resume_fulfilled. cbn [snd].
  destruct h as [st mr lr il rd ds ia cs].
  destruct st as [ch|], mr as [m|];
    (split; [reflexivity|]);
    unfold consistent; cbn; intros (Hst & Hrd & _); try tauto;
    (split; [reflexivity|]); (split; [try reflexivity|]);
    try (destruct rd; auto; now elim Hrd).
  all: intros Hn Hm Hin; try apply in_app_or in Hin as [Hin|[->|[]]]; auto.
Qed.

Lemma handle_loaded_after_teardown_is_dropped_witness :
  modelRef (snd (loadModel_resume (Some sampleInfo) (Ok 2%nat)
                   (cleanupApp showing))) = None.
Proof.
  destruct (handle_loaded_after_teardown_is_dropped (Some sampleInfo) 2
              showing) as (_ & H).
  destruct H as (H & _); [|exact H].
  unfold consistent, showing. cbn. repeat split; auto. discriminate.
Defined.

(** X20.  A change of URL while a load is in flight is lost: the
    clean-up of the model runs, but the call of [loadModel] for the new
    URL finds the in-flight flag set and returns without asking the
    loader; when the first loader yields its handle, that handle, of the
    old URL, is the one shown. *)
Theorem url_change_during_load_is_lost
  (infoA infoB : ModelInfo) (loaderB : LoadRequest -> Result nat)
  (model : nat) (h : Hook) :
  consistent h ->
  stage h <> None ->
  loadingRef h = false ->
  url infoA <> "" ->
  loadModel (Some infoB) loaderB
    (cleanupModel (fst (loadModel_begin (Some infoA) h)))
  = (Fulfilled, cleanupModel (fst (loadModel_begin (Some infoA) h))) /\
  stage
    (snd (loadModel_resume (Some infoA) (Ok model)
            (cleanupModel (fst (loadModel_begin (Some infoA) h)))))
  = Some [model] /\
  modelRef
    (snd (loadModel_resume (Some infoA) (Ok model)
            (cleanupModel (fst (loadModel_begin (Some infoA) h)))))
  = Some model /\
  loadingRef
    (snd (loadModel_resume (Some infoA) (Ok model)
            (cleanupModel (fst (loadModel_begin (Some infoA) h)))))
  = false.
Proof.
  intros (Hst & _ & _) Hstage Hlr Hurl.
  destruct h as [st mr lr il rd ds ia cs]. cbn in Hst, Hstage, Hlr.
  subst lr. destruct st as [ch|]; [|congruence].
  assert (Hb : fst (loadModel_begin (Some infoA)
                      (mkHook (Some ch) mr false il rd ds ia cs))
               = mkHook (Some ch) mr true true rd ds ia
                   (cs ++ [log "Loading model:"])).
  { unfold loadModel_begin. cbn [stage loadingRef].
    destruct (String.eqb_spec (url infoA) ""); [congruence | reflexivity]. }
  rewrite Hb.
  assert (Hc : cleanupModel
                 (mkHook (Some ch) mr true true rd ds ia
                    (cs ++ [log "Loading model:"]))
               = mkHook (Some []) None true true false
                   (ds ++ match mr with Some old => [old] | None => [] end)
                   ia (cs ++ [log "Loading model:"])).
  { unfold cleanupModel. destruct mr as [old|]; subst ch; cbn -[without].
    - now rewrite without_self.
    - now rewrite app_nil_r. }
  rewrite Hc. split.
  - unfold loadModel. now rewrite loadModel_begin_in_flight.
  - rewrite loadModel_resume_fulfilled. repeat split.
Qed.

Lemma url_change_during_load_is_lost_witness :
  modelRef
    (snd (loadModel_resume (Some sampleInfo) (Ok 2%nat)
            (cleanupModel (fst (loadModel_begin (Some sampleInfo) showing)))))
  = Some 2%nat.
Proof.
  destruct (url_change_during_load_is_lost sampleInfo
              (mkModelInfo "models/mao/mao.model3.json" None None)
              (fun _ => Ok 3%nat) 2 showing) as (_ & _ & H & _).
  - unfold consistent, showing. cbn. repeat split; auto. discriminate.
  - discriminate.
  - reflexivity.
  - discriminate.
  - exact H.
Defined.

(** X21.  A reload that fails leaves the model area blank: when the
    model is cleaned up for a new URL and the loader for it rejects, the
    stage is empty, no handle is current, the model is not reported
    ready, the handle that was shown is destroyed, the failure is on the
    console and the loading flags are cleared. *)
Theorem failed_reload_leaves_stage_blank
  (info : ModelInfo) (err : string) (h : Hook) :
  consistent h ->
  stage h <> None ->
  loadingRef h = false ->
  url info <> "" ->
  snd (loadModel (Some info) (fun _ => Throw err) (cleanupModel h))
  = mkHook (Some []) None false false false
      (destroyed h ++ match modelRef h with Some old => [old] | None => [] end)
      (interactive h)
      (console h ++ [log "Loading model:";
                     error "Failed to load Live2D model:"]).
Proof.
  intros (Hst & _ & _) Hstage Hlr Hurl.
  destruct h as [st mr lr il rd ds ia cs]. cbn in Hst, Hstage, Hlr.
  subst lr. destruct st as [ch|]; [|congruence].
  assert (Hc : cleanupModel (mkHook (Some ch) mr false il rd ds ia cs)
               = mkHook (Some []) None false il false
                   (ds ++ match mr with Some old => [old] | None => [] end)
                   ia cs).
  { unfold cleanupModel. destruct mr as [old|]; subst ch; cbn -[without].
    - now rewrite without_self.
    - now rewrite app_nil_r. }
  rewrite Hc. unfold loadModel, loadModel_begin. cbn [stage loadingRef].
  destruct (String.eqb_spec (url info) ""); [congruence|].
  rewrite loadModel_resume_rejected. cbn.
  now rewrite <- app_assoc.
Qed.

Lemma failed_reload_leaves_stage_blank_witness :
  snd (loadModel (Some sampleInfo) (fun _ => Throw "404")
         (cleanupModel showing))
  = mkHook (Some []) None false false false [1%nat] [1%nat]
      [log "Loading model:"; error "Failed to load Live2D model:"].
Proof.
  apply (failed_reload_leaves_stage_blank sampleInfo "404" showing).
  - unfold consistent, showing. cbn. repeat split; auto. discriminate.
  - discriminate.
  - reflexivity.
  - discriminate.
Defined.

End HandleLife.

(* ------------------------------------------------------------------------- *)
(** ** Playing audio from outside the hook *)

Section LipSyncFacts.
Import Js LipSync.

Lemma onAll_settled (evs : list AudioEvent) :
  forall p played,
    listens p = true ->
    played = (0 <? plays p)%nat ->
    playable played evs = true ->
    settledAs (onAll p evs) =
    match settledAs p with
    | Pending =>
        match find settles evs with
        | None => Pending
        | Some ended => Fulfilled
        | Some _ => Rejected
        end
    | s => s
    end.
Proof.
  unfold onAll. induction evs as [|ev evs IH]; intros p played Hl Hp Hev.
  - cbn. now destruct (settledAs p).
  - cbn [fold_left find]. destruct p as [s u l n]. cbn [listens plays] in Hl, Hp. subst l.
    destruct ev as [|reason| |]; cbn [playable] in Hev; cbn [on settles listens].
    + rewrite (IH _ true); auto.
    + apply andb_true_iff in Hev as [Hpl Hev]. subst played.
      cbn [plays]. rewrite Hpl.
      rewrite (IH _ (0 <? n)%nat); auto. cbn. now destruct s.
    + rewrite (IH _ played); auto. cbn. now destruct s.
    + rewrite (IH _ played); auto. cbn. now destruct s.
Qed.

(** X22.  The promise of [playAudioWithLipSync] is settled by whatever
    comes first: it is rejected at once when the element cannot be made
    or loaded; otherwise it is fulfilled when [ended] comes before any
    [error] event and any rejection of [audio.play()], rejected when one
    of those comes before [ended], and pending until then.  Unlike the
    promise of a speech task, this one is rejected by a playback error. *)
Theorem playAudioWithLipSync_settles
  (audio : AudioElement) (audioBase64 : string) (volumes : list float)
  (evs : list AudioEvent) :
  playable false evs = true ->
  settledAs (onAll (playAudioWithLipSync audio audioBase64 volumes) evs) =
  match constructor_throws audio, load_throws audio with
  | None, None =>
      match find settles evs with
      | None => Pending
      | Some ended => Fulfilled
      | Some _ => Rejected
      end
  | _, _ => Rejected
  end.
Proof.
  intros Hev. unfold playAudioWithLipSync.
  destruct (constructor_throws audio) as [e|].
  - clear Hev. unfold onAll.
    assert (H : forall p, settledAs p = Rejected -> listens p = false ->
                          plays p = 0%nat ->
                          settledAs (fold_left on evs p) = Rejected).
    { induction evs as [|ev evs IH]; intros p Hs Hl Hn; [exact Hs|].
      cbn [fold_left]. apply IH; destruct p as [s u l n];
        cbn in Hs, Hl, Hn; subst; destruct ev; reflexivity. }
    now apply H.
  - destruct (load_throws audio) as [e|].
    + rewrite (onAll_settled evs _ false); auto.
    + rewrite (onAll_settled evs _ false); auto.
Qed.

Lemma playAudioWithLipSync_settles_witness :
  settledAs
    (onAll (playAudioWithLipSync (mkAudio None None) "UklGRg=="%string [])
       [canplaythrough; error_event; ended]) = Rejected.
Proof.
  exact (playAudioWithLipSync_settles (mkAudio None None) "UklGRg=="%string
           [] [canplaythrough; error_event; ended] eq_refl).
Defined.

End LipSyncFacts.
